(** * GridWorldMDP: value iteration and policy derivation on a grid MDP

    A shallow embedding of [mdp.py], in two readings of its numbers.

    Exact arithmetic.  The first model takes Python's numbers (ints and
    floats mixed) as exact rationals [Q]; a numeric statement on it is a
    statement about the program under exact arithmetic, and equality of
    two numbers is [Qeq] ([==]).  The two infinite seeds of the source,
    [float("inf")] and [float('-inf')], are modelled there by [None] in
    an [option Q] accumulator.

    Doubles.  The second model, module [F64], takes them as they are
    at run time: IEEE binary64 numbers with their rounded operations,
    infinities and NaN.  Statements whose truth depends on rounding,
    overflow or comparisons with an infinity are made on it; where a
    statement holds under exact arithmetic only, it says so.

    Containers.  The utility dictionaries are [gmap]s keyed by states; the
    successor dictionary, whose items are iterated in insertion order, is
    an association list kept in insertion order.

    Effects.  A dictionary subscript on a missing key raises [KeyError];
    the [while] loop of [value_iteration] may run for ever.  Both are
    explicit in the [outcome] type. *)

From Stdlib Require Import ZArith QArith Qabs Qminmax Lqa Lia List String.
From Stdlib Require Floats.
From stdpp Require Import gmap strings list fin_maps.

Local Open Scope Z_scope.

(** ** Data *)

Abbreviation state := (Z * Z)%type.
Abbreviation utility_map := (gmap (Z * Z) Q).
Abbreviation policy_map := (gmap (Z * Z) (option string)).

(** The successor dictionary: [(key, value)] items in insertion order. *)
Abbreviation succ_dict := (list ((Z * Z) * Q)).

(** The attributes that [MDP.__init__] sets. *)
Record MDP : Type := {
  nrows : Z;
  ncols : Z;
  states : list state;
  rewards : gmap (Z * Z) Q;
  terminals : list state;
  prob_forw : Q;
  prob_side : Q;
  reward_def : Q;
  actions : list string
}.

(** [range(n)]: empty when [n <= 0]. *)
Definition py_range (n : Z) : list Z := map Z.of_nat (seq 0 (Z.to_nat n)).

(** The nested loop of [__init__] that fills [self.states]. *)
Definition grid_states (num_rows num_cols : Z) : list state :=
  flat_map (fun i => map (fun j => (i + 1, j + 1)) (py_range num_rows))
           (py_range num_cols).

Definition four_actions : list string :=
  ["up"; "right"; "down"; "left"]%string.

Definition MDP_init (num_rows num_cols : Z) (rewards : gmap (Z * Z) Q)
    (terminals : list state) (prob_forw reward_default : Q) : MDP :=
  {| nrows := num_rows;
     ncols := num_cols;
     states := grid_states num_rows num_cols;
     rewards := rewards;
     terminals := terminals;
     prob_forw := prob_forw;
     prob_side := ((1 - prob_forw) / 2)%Q;
     reward_def := reward_default;
     actions := four_actions |}.

Definition get_states (m : MDP) : list state := states m.

Definition get_actions (m : MDP) (s : state) : list string := actions m.

Definition is_terminal (m : MDP) (s : state) : bool :=
  bool_decide (s ∈ terminals m).

Definition get_reward (m : MDP) (s : state) : Q :=
  default (reward_def m) (rewards m !! s).

(** ** The successor dictionary *)

(** [d[k] = v] on a dictionary that keeps insertion order. *)
Fixpoint dict_set (k : state) (v : Q) (d : succ_dict) : succ_dict :=
  match d with
  | [] => [(k, v)]
  | (k', v') :: d' =>
      if decide (k' = k) then (k', v) :: d' else (k', v') :: dict_set k v d'
  end.

(** [d[k] += v] on a [defaultdict(float)]: a missing key starts at [0.0]. *)
Fixpoint dict_iadd (k : state) (v : Q) (d : succ_dict) : succ_dict :=
  match d with
  | [] => [(k, (0 + v)%Q)]
  | (k', v') :: d' =>
      if decide (k' = k) then (k', (v' + v)%Q) :: d'
      else (k', v') :: dict_iadd k v d'
  end.

Definition get_successor_probs (m : MDP) (s : state) (action : string)
    : succ_dict :=
  if is_terminal m s then []
  else
    let '(x, y) := s in
    let succ_up := (x, Z.min (nrows m) (y + 1)) in
    let succ_right := (Z.min (ncols m) (x + 1), y) in
    let succ_down := (x, Z.max 1 (y - 1)) in
    let succ_left := (Z.max 1 (x - 1), y) in
    let succ__prob : succ_dict := [] in
    if String.eqb action "up" then
      dict_iadd succ_left (prob_side m)
        (dict_iadd succ_right (prob_side m)
           (dict_set succ_up (prob_forw m) succ__prob))
    else if String.eqb action "right" then
      dict_iadd succ_down (prob_side m)
        (dict_iadd succ_up (prob_side m)
           (dict_set succ_right (prob_forw m) succ__prob))
    else if String.eqb action "down" then
      dict_iadd succ_left (prob_side m)
        (dict_iadd succ_right (prob_side m)
           (dict_set succ_down (prob_forw m) succ__prob))
    else if String.eqb action "left" then
      dict_iadd succ_down (prob_side m)
        (dict_iadd succ_up (prob_side m)
           (dict_set succ_left (prob_forw m) succ__prob))
    else succ__prob.

(** ** Outcomes of a call *)

Inductive outcome (A : Type) : Type :=
| Ret (a : A)                (* normal return *)
| KeyError (k : state)       (* subscript on a missing key *)
| NonFinite                  (* an infinite seed reached the arithmetic *)
| Timeout.                   (* the loop used up its fuel *)

Arguments Ret {A} a.
Arguments KeyError {A} k.
Arguments NonFinite {A}.
Arguments Timeout {A}.

#[global] Instance outcome_bind : MBind outcome := λ A B f c,
  match c with
  | Ret a => f a
  | KeyError k => KeyError k
  | NonFinite => NonFinite
  | Timeout => Timeout
  end.

(** A [for] loop whose body may raise. *)
Fixpoint for_each {A B : Type} (body : B -> A -> outcome B) (l : list A)
    (acc : B) : outcome B :=
  match l with
  | [] => Ret acc
  | x :: l' => acc' ← body acc x; for_each body l' acc'
  end.

(** [d[k]] on a plain dictionary. *)
Definition subscript {V : Type} (d : gmap (Z * Z) V) (k : state) : outcome V :=
  match d !! k with
  | Some v => Ret v
  | None => KeyError k
  end.

(** [max(a, b)]: the first argument is kept unless the second is greater. *)
Definition py_max (a b : Q) : Q := if Qlt_le_dec a b then b else a.

(** ** utility_prob_sum *)

Definition utility_prob_sum (prob_state_dict : succ_dict)
    (utility_dict : utility_map) : outcome Q :=
  for_each
    (fun sum_val '(suc, prob) =>
       u ← subscript utility_dict suc; Ret (sum_val + prob * u)%Q)
    prob_state_dict 0%Q.

(** ** value_iteration *)

(** The first loop: seeds [utilities] with the rewards and scans for the
    least one; [min_reward = None] stands for [float("inf")]. *)
Definition vi_init_step (m : MDP) (acc : utility_map * option Q) (s : state)
    : utility_map * option Q :=
  let '(utilities, min_reward) := acc in
  let u := get_reward m s in
  (<[s := u]> utilities,
   match min_reward with
   | None => Some u
   | Some mr => if Qlt_le_dec u mr then Some u else Some mr
   end).

Definition vi_init (m : MDP) : utility_map * option Q :=
  fold_left (vi_init_step m) (get_states m) (∅, None).

(** The body of the sweep for one state. *)
Definition sweep_state (m : MDP) (gamma : Q) (min_reward : option Q)
    (utilities : utility_map) (acc : utility_map * Q) (s : state)
    : outcome (utility_map * Q) :=
  let '(updated_utilities, convergence_val) := acc in
  temp ← subscript utilities s;
  max_val ← match min_reward with Some mr => Ret mr | None => NonFinite end;
  max_val ← for_each
               (fun max_val action =>
                  e ← utility_prob_sum (get_successor_probs m s action)
                         utilities;
                  Ret (py_max max_val e))
               (get_actions m s) max_val;
  let new := (get_reward m s + gamma * max_val)%Q in
  Ret (<[s := new]> updated_utilities,
       py_max convergence_val (Qabs (temp - new))).

(** One pass of the inner [for] loop over all states. *)
Definition sweep (m : MDP) (gamma : Q) (min_reward : option Q)
    (utilities updated_utilities : utility_map)
    : outcome (utility_map * Q) :=
  for_each (sweep_state m gamma min_reward utilities) (get_states m)
    (updated_utilities, 0%Q).

(** [for state in updated_utilities.keys(): utilities[state] = ...]. *)
Definition copy_back (updated_utilities utilities : utility_map)
    : utility_map :=
  map_fold (fun state v u => <[state := v]> u) utilities updated_utilities.

Fixpoint vi_loop (fuel : nat) (m : MDP) (gamma epsilon : Q)
    (min_reward : option Q) (utilities updated_utilities : utility_map)
    : outcome utility_map :=
  match fuel with
  | O => Timeout
  | S fuel' =>
      '(updated_utilities, convergence_val) ←
         sweep m gamma min_reward utilities updated_utilities;
      let utilities := copy_back updated_utilities utilities in
      if Qle_bool convergence_val epsilon then Ret updated_utilities
      else vi_loop fuel' m gamma epsilon min_reward utilities
             updated_utilities
  end.

Definition value_iteration (fuel : nat) (m : MDP) (gamma epsilon : Q)
    : outcome utility_map :=
  let '(utilities, min_reward) := vi_init m in
  vi_loop fuel m gamma epsilon min_reward utilities ∅.

(** ** derive_policy *)

(** [[prob*utility[s_p] for s_p, prob in d.items()]]. *)
Fixpoint weighted_terms (d : succ_dict) (utility : utility_map)
    : outcome (list Q) :=
  match d with
  | [] => Ret []
  | (s_p, prob) :: d' =>
      u ← subscript utility s_p;
      rest ← weighted_terms d' utility;
      Ret ((prob * u)%Q :: rest)
  end.

(** The builtin [sum] of a list. *)
Definition py_sum (l : list Q) : Q := fold_left Qplus l 0%Q.

(** [exp_util > best_utility], where [None] is [float('-inf')]. *)
Definition gt_best (exp_util : Q) (best_utility : option Q) : bool :=
  match best_utility with
  | None => true
  | Some b => if Qlt_le_dec b exp_util then true else false
  end.

Definition policy_action_step (m : MDP) (utility : utility_map) (s : state)
    (acc : option string * option Q) (a : string)
    : outcome (option string * option Q) :=
  let '(best_action, best_utility) := acc in
  terms ← weighted_terms (get_successor_probs m s a) utility;
  let exp_util := py_sum terms in
  if gt_best exp_util best_utility then Ret (Some a, Some exp_util)
  else Ret (best_action, best_utility).

Definition policy_state_step (m : MDP) (utility : utility_map)
    (policy : policy_map) (s : state) : outcome policy_map :=
  if is_terminal m s then Ret (<[s := None]> policy)
  else
    '(best_action, _) ←
       for_each (policy_action_step m utility s) (get_actions m s)
         (None, None);
    Ret (<[s := best_action]> policy).

Definition derive_policy (m : MDP) (utility : utility_map)
    : outcome policy_map :=
  for_each (policy_state_step m utility) (get_states m) ∅.

(** ** The scenarios of [mdp_test.py] *)

Definition test_rewards (r22 : Q) : gmap (Z * Z) Q :=
  <[(2, 2) := r22]> (<[(3, 2) := 20%Q]> (<[(1, 2) := (-1)%Q]>
    (<[(3, 1) := (-1)%Q]> (<[(2, 1) := (-1)%Q]> {[ (1, 1) := (-1)%Q ]})))).

Definition gridworld1 : MDP :=
  MDP_init 2 3 (test_rewards (-10)) [(3, 2)] (8 # 10) 0.

(** ** Reading the code: expectations, totals and the Bellman value *)

Local Open Scope Q_scope.

(** [U[k]] when the key is present (and [0] otherwise, never used where a
    lemma below requires the key). *)
Definition util_at (U : utility_map) (k : state) : Q := default 0 (U !! k).

(** The value that the loop of [utility_prob_sum] accumulates. *)
Fixpoint ups_value (d : succ_dict) (U : utility_map) (sum_val : Q) : Q :=
  match d with
  | [] => sum_val
  | (suc, prob) :: d' => ups_value d' U (sum_val + prob * util_at U suc)
  end.

(** The probability-weighted sum of utilities over a successor mapping. *)
Fixpoint expectation (d : succ_dict) (U : utility_map) : Q :=
  match d with
  | [] => 0
  | (k, p) :: d' => p * util_at U k + expectation d' U
  end.

(** The sum of the probabilities held by a successor mapping. *)
Fixpoint total_prob (d : succ_dict) : Q :=
  match d with
  | [] => 0
  | (_, p) :: d' => p + total_prob d'
  end.

(** The probability a successor mapping holds for one cell. *)
Fixpoint mass (c : state) (d : succ_dict) : Q :=
  match d with
  | [] => 0
  | (k, p) :: d' => (if decide (k = c) then p else 0) + mass c d'
  end.

Definition keys (d : succ_dict) : list state := map fst d.

(** No probability of the mapping is negative. *)
Definition nonneg (d : succ_dict) : Prop := forall k p, In (k, p) d -> 0 <= p.

Definition covers (U : utility_map) (l : list state) : Prop :=
  forall k, In k l -> is_Some (U !! k).

(** The value of [max_val] after the loop over the actions. *)
Definition max_over (m : MDP) (U : utility_map) (s : state)
    (acts : list string) (max_val : Q) : Q :=
  fold_left
    (fun mv a => py_max mv (ups_value (get_successor_probs m s a) U 0))
    acts max_val.

(** What a sweep stores for [s], as a function of the snapshot [U] alone. *)
Definition bellman (m : MDP) (gamma min_reward : Q) (U : utility_map)
    (s : state) : Q :=
  get_reward m s + gamma * max_over m U s (get_actions m s) min_reward.

(** The dictionary [updated_utilities] after the sweep has visited [l]. *)
Definition sweep_values (m : MDP) (gamma min_reward : Q) (U : utility_map)
    (l : list state) (updated : utility_map) : utility_map :=
  fold_left (fun u s => <[s := bellman m gamma min_reward U s]> u) l updated.

(** [convergence_val] after the sweep has visited [l]. *)
Definition sweep_change (m : MDP) (gamma min_reward : Q) (U : utility_map)
    (l : list state) (convergence_val : Q) : Q :=
  fold_left
    (fun c s => py_max c (Qabs (util_at U s - bellman m gamma min_reward U s)))
    l convergence_val.

(** [b * gamma ^ n]. *)
Fixpoint decay (gamma b : Q) (n : nat) : Q :=
  match n with
  | O => b
  | S n' => decay gamma (gamma * b) n'
  end.

(** The value of [exp_util] in [derive_policy]. *)
Definition exp_util_value (m : MDP) (U : utility_map) (s : state)
    (a : string) : Q :=
  py_sum (map (fun '(k, p) => p * util_at U k) (get_successor_probs m s a)).

(** One pass of the loop over the actions in [derive_policy]. *)
Definition best_step (m : MDP) (U : utility_map) (s : state)
    (acc : option string * option Q) (a : string)
    : option string * option Q :=
  if gt_best (exp_util_value m U s a) acc.2
  then (Some a, Some (exp_util_value m U s a)) else acc.

(** What [derive_policy] stores for [s]. *)
Definition policy_choice (m : MDP) (U : utility_map) (s : state)
    : option string :=
  if is_terminal m s then None
  else (fold_left (best_step m U s) (get_actions m s) (None, None)).1.

(** [(ba, bu)] is the first action of [pre] with the greatest value. *)
Definition first_best (value : string -> Q) (pre : list string)
    (acc : option string * option Q) : Prop :=
  match acc with
  | (None, None) => pre = []
  | (Some a, Some e) =>
      e = value a /\
      exists i, pre !! i = Some a /\
        forall j b, pre !! j = Some b ->
          value b <= value a /\ ((j < i)%nat -> value b < value a)
  | _ => False
  end.

(** A call that returns or raises [KeyError], and nothing else. *)
Definition returns_or_raises {A : Type} (c : outcome A) : Prop :=
  match c with
  | Ret _ | KeyError _ => True
  | NonFinite | Timeout => False
  end.

(** A one-cell world whose only state is terminal and has reward 1. *)
Definition one_cell : MDP :=
  MDP_init 1 1 {[ (1, 1)%Z := 1 ]} [(1, 1)%Z] (1 # 2) 0.

(** What [value_iteration] returns on [one_cell] with discount [1/2]. *)
Definition one_cell_result : utility_map := {[ (1, 1)%Z := 3 # 2 ]}.

(** The grid of the tests with positive rewards only: 20 at the terminal
    state and 1 (the default) elsewhere. *)
Definition gridworld_positive : MDP :=
  MDP_init 2 3 {[ (3, 2)%Z := 20 ]} [(3, 2)%Z] (8 # 10) 1.



(** Two cells in a row and a forward probability of 3, outside [0,1]; the
    constructor accepts it. *)
Definition skewed_pair : MDP :=
  MDP_init 1 2 (<[(1, 1)%Z := -2]> {[ (2, 1)%Z := 1 ]}) [] 3 0.

(** Two cells in a row without terminal state, rewards 1 and -2. *)
Definition pair_world : MDP :=
  MDP_init 1 2 (<[(1, 1)%Z := 1]> {[ (2, 1)%Z := -2 ]}) [] (1 # 2) 0.

(** What [__init__] establishes and nothing changes afterwards. *)
Record constructed (m : MDP) : Prop := {
  constructed_states : states m = grid_states (nrows m) (ncols m);
  constructed_side : prob_side m = (1 - prob_forw m) / 2;
  constructed_actions : actions m = four_actions
}.

(** Within the grid. *)
Definition in_grid (m : MDP) (s : state) : Prop :=
  (1 <= fst s <= ncols m)%Z /\ (1 <= snd s <= nrows m)%Z.

(** Two snapshots differ by at most [e] at every cell of the grid. *)
Definition close_on_grid (m : MDP) (U V : utility_map) (e : Q) : Prop :=
  forall k, in_grid m k -> Qabs (util_at U k - util_at V k) <= e.

(** ** The words of the specification, for comparison with the code *)

Module Spec.

(** One step in a direction, a blocked coordinate staying unchanged. *)
Definition step (m : MDP) (dir : string) (s : state) : state :=
  let '(x, y) := s in
  if String.eqb dir "up" then
    (if decide (y + 1 <= nrows m)%Z then (x, y + 1)%Z else (x, y))
  else if String.eqb dir "right" then
    (if decide (x + 1 <= ncols m)%Z then (x + 1, y)%Z else (x, y))
  else if String.eqb dir "down" then
    (if decide (1 <= y - 1)%Z then (x, y - 1)%Z else (x, y))
  else
    (if decide (1 <= x - 1)%Z then (x - 1, y)%Z else (x, y)).

(** The two directions orthogonal to an action. *)
Definition sides (action : string) : string * string :=
  if String.eqb action "up" then ("right", "left")%string
  else if String.eqb action "down" then ("right", "left")%string
  else ("up", "down")%string.

(** The three attempted moves with their probabilities, unmerged. *)
Definition attempts (m : MDP) (s : state) (action : string) : succ_dict :=
  [ (step m action s, prob_forw m);
    (step m (fst (sides action)) s, (1 - prob_forw m) / 2);
    (step m (snd (sides action)) s, (1 - prob_forw m) / 2) ].

(** The maximum of the four expectations over the baseline. *)
Definition max_val (m : MDP) (min_reward : Q) (U : utility_map)
    (s : state) : Q :=
  let e a := expectation (get_successor_probs m s a) U in
  Qmax (Qmax (Qmax (Qmax min_reward (e "up"%string)) (e "right"%string))
             (e "down"%string)) (e "left"%string).

(** [r] is the least reward over the states. *)
Definition least_reward (m : MDP) (r : Q) : Prop :=
  (exists s, In s (get_states m) /\ r = get_reward m s) /\
  (forall s, In s (get_states m) -> r <= get_reward m s).

(** Every state at its immediate reward. *)
Definition rewards_map (m : MDP) : utility_map :=
  fold_left (fun u s => <[s := get_reward m s]> u) (get_states m) ∅.

(** One sweep of the update rule over a snapshot. *)
Definition update (m : MDP) (gamma min_reward : Q) (U : utility_map)
    : utility_map :=
  fold_left
    (fun u s => <[s := get_reward m s + gamma * max_val m min_reward U s]> u)
    (get_states m) ∅.

(** The snapshot after [n] sweeps of the update rule from [U]. *)
Fixpoint sweeps (m : MDP) (gamma min_reward : Q) (n : nat) (U : utility_map)
    : utility_map :=
  match n with
  | O => U
  | S n' => sweeps m gamma min_reward n' (update m gamma min_reward U)
  end.

End Spec.

(** The utility map has an entry for every successor, under every action,
    of every state of the model that is not terminal. *)
Definition successors_covered (m : MDP) (U : utility_map) : Prop :=
  forall s a,
    In s (get_states m) -> is_terminal m s = false ->
    In a (get_actions m s) ->
    covers U (keys (get_successor_probs m s a)).

(** ** Rendering and the driver *)

(** The exceptions of the rendering functions: a subscript on a missing
    cell of the grid, or on a value that [symbols] does not know. *)
Inductive exn : Type :=
| KeyErrorCell (k : state)
| KeyErrorSymbol (v : option string).

Inductive raised (A : Type) : Type :=
| Fine (a : A)
| Raised (e : exn).

Arguments Fine {A} a.
Arguments Raised {A} e.

#[global] Instance raised_bind : MBind raised := λ A B f c,
  match c with
  | Fine a => f a
  | Raised e => Raised e
  end.

(** The text of ["\n"]. *)
Definition newline : string := String (Ascii.ascii_of_nat 10) "".

(** [vals[k]] in [ascii_grid]. *)
Definition cell (vals : gmap (Z * Z) string) (k : state) : raised string :=
  match vals !! k with
  | Some v => Fine v
  | None => Raised (KeyErrorCell k)
  end.

(** The dictionary holds the texts of the cells; [format] pastes them in. *)
Definition ascii_grid (vals : gmap (Z * Z) string) : raised string :=
  let s := ""%string in
  let s := s +:+ " ________________________________  " +:+ newline in
  let s := s +:+ "|          |          |          | " +:+ newline in
  v12 ← cell vals (1, 2)%Z;
  v22 ← cell vals (2, 2)%Z;
  v32 ← cell vals (3, 2)%Z;
  let s := s +:+ "| " +:+ v12 +:+ " | " +:+ v22 +:+ " | " +:+ v32
             +:+ " | " +:+ newline in
  let s := s +:+ "|__________|__________|__________| " +:+ newline in
  let s := s +:+ "|          |          |          | " +:+ newline in
  v11 ← cell vals (1, 1)%Z;
  v21 ← cell vals (2, 1)%Z;
  v31 ← cell vals (3, 1)%Z;
  let s := s +:+ "| " +:+ v11 +:+ " | " +:+ v21 +:+ " | " +:+ v31
             +:+ " | " +:+ newline in
  let s := s +:+ "|__________|__________|__________| " +:+ newline in
  Fine s.

(** The cells that [ascii_grid] reads, in the order it reads them. *)
Definition six_cells : list state :=
  [(1, 2); (2, 2); (3, 2); (1, 1); (2, 1); (3, 1)]%Z.

(** [format_8_4f v] stands for ["{:8.4f}".format(v)], the text of a number
    with four decimals; number formatting is left to the caller. *)
Definition ascii_grid_utils (format_8_4f : Q -> string)
    (utility : utility_map) : raised string :=
  ascii_grid (format_8_4f <$> utility).

(** The dictionary [symbols] of [ascii_grid_policy]. *)
Definition symbols (v : option string) : option string :=
  match v with
  | Some a =>
      if String.eqb a "up" then Some "^^^"%string
      else if String.eqb a "right" then Some ">>>"%string
      else if String.eqb a "down" then Some "vvv"%string
      else if String.eqb a "left" then Some "<<<"%string
      else None
  | None => Some " x "%string
  end.

(** [[(k, "   " + symbols[v] + "  ") for k, v in actions.items()]]. *)
Fixpoint policy_cells (items : list (state * option string))
    : raised (list (state * string)) :=
  match items with
  | [] => Fine []
  | (k, v) :: items' =>
      match symbols v with
      | None => Raised (KeyErrorSymbol v)
      | Some sym =>
          rest ← policy_cells items';
          Fine ((k, "   " +:+ sym +:+ "  ") :: rest)
      end
  end.

(** The items are visited in the order of the map, which is not the
    insertion order of the dictionary; the order only decides which of
    several unknown values is reported. *)
Definition ascii_grid_policy (actions : policy_map) : raised string :=
  cells ← policy_cells (map_to_list actions);
  ascii_grid (list_to_map cells).

(** The text that [ascii_grid_policy] makes of a value with a symbol. *)
Definition cell_text (v : option string) : string :=
  "   " +:+ default ""%string (symbols v) +:+ "  ".

(** [s * n] on a string. *)
Fixpoint str_times (s : string) (n : nat) : string :=
  match n with
  | O => ""
  | S n' => s +:+ str_times s n'
  end.

(** What the [except] branch prints, one text per call of [print];
    [format_exc e] stands for [traceback.format_exc()].  The branch for
    [utilities == None] is left out: [utilities] is a dictionary there. *)
Definition except_prints (format_exc : exn -> string) (e : exn)
    : list string :=
  [ "Error Traceback:";
    str_times "―" 10;
    format_exc e +:+ " " +:+ str_times "―" 10;
    newline +:+ "Your value iteration is likely returning the wrong format."
  ]%string.

(** The driver: the texts printed, one per call of [print], and the pair
    returned, [None] being Python's [None].  [value_iteration] is called
    outside the [try], so that its outcome, if it is not a return, is the
    outcome of the driver. *)
Definition utils_and_policy (format_8_4f : Q -> string)
    (format_exc : exn -> string) (fuel : nat) (emdeepee : option MDP)
    (gamma epsilon : option Q)
    : outcome (list string * (option utility_map * option policy_map)) :=
  match emdeepee, gamma, epsilon with
  | Some m, Some g, Some e =>
      utilities ← value_iteration fuel m g e;
      match ascii_grid_utils format_8_4f utilities with
      | Raised ex => Ret (except_prints format_exc ex, (None, None))
      | Fine text =>
          let printed := [text; ""%string] in
          match derive_policy m utilities with
          | Ret policy =>
              match ascii_grid_policy policy with
              | Raised ex =>
                  Ret (printed ++ except_prints format_exc ex, (None, None))
              | Fine text' =>
                  Ret (printed ++ [text'], (Some utilities, Some policy))
              end
          | KeyError k =>
              Ret (printed ++ except_prints format_exc (KeyErrorCell k),
                   (None, None))
          | NonFinite => NonFinite
          | Timeout => Timeout
          end
      end
  | _, _, _ =>
      Ret (["At least one of emdeepee, gamma, or epsilon was None in utils_and_policy."%string],
           (None, None))
  end.

(** ** Further scenarios *)

(** Two cells in a row, the right one terminal with reward 20, the left
    one with the default reward -1. *)
Definition corridor : MDP :=
  MDP_init 1 2 {[ (2, 1)%Z := 20 ]} [(2, 1)%Z] (1 # 2) (-1).

(** The grid of the tests with, besides, a reward for a cell outside the
    grid and a terminal state outside the grid. *)
Definition gridworld1_padded : MDP :=
  MDP_init 2 3 (<[(9, 9)%Z := 5]> (test_rewards (-10)))
    [(3, 2)%Z; (0, 0)%Z] (8 # 10) 0.

(** ** The program over IEEE doubles

    The same functions with Python's floats as they are: binary64 numbers
    with their rounded operations, infinities and NaN.  A reward given as
    a Python integer is the double of the same value.  Statements whose
    truth depends on rounding, overflow or the comparisons with an
    infinity are made on this model. *)

Module F64.

Import PrimFloat SpecFloat FloatOps.
Local Open Scope float_scope.

Record MDP : Type := {
  nrows : Z;
  ncols : Z;
  states : list state;
  rewards : gmap (Z * Z) float;
  terminals : list state;
  prob_forw : float;
  prob_side : float;
  reward_def : float;
  actions : list string
}.

Definition MDP_init (num_rows num_cols : Z) (rewards : gmap (Z * Z) float)
    (terminals : list state) (prob_forw reward_default : float) : MDP :=
  {| nrows := num_rows;
     ncols := num_cols;
     states := grid_states num_rows num_cols;
     rewards := rewards;
     terminals := terminals;
     prob_forw := prob_forw;
     prob_side := (1 - prob_forw) / 2;
     reward_def := reward_default;
     actions := four_actions |}.

Definition get_states (m : MDP) : list state := states m.

Definition get_actions (m : MDP) (s : state) : list string := actions m.

Definition is_terminal (m : MDP) (s : state) : bool :=
  bool_decide (s ∈ terminals m).

Definition get_reward (m : MDP) (s : state) : float :=
  default (reward_def m) (rewards m !! s).

(** [d[k] = v]. *)
Fixpoint dict_set (k : state) (v : float) (d : list ((Z * Z) * float))
    : list ((Z * Z) * float) :=
  match d with
  | [] => [(k, v)]
  | (k', v') :: d' =>
      if decide (k' = k) then (k', v) :: d' else (k', v') :: dict_set k v d'
  end.

(** [d[k] += v] on a [defaultdict(float)]: a missing key starts at [0.0]. *)
Fixpoint dict_iadd (k : state) (v : float) (d : list ((Z * Z) * float))
    : list ((Z * Z) * float) :=
  match d with
  | [] => [(k, 0 + v)]
  | (k', v') :: d' =>
      if decide (k' = k) then (k', v' + v) :: d'
      else (k', v') :: dict_iadd k v d'
  end.

Definition get_successor_probs (m : MDP) (s : state) (action : string)
    : list ((Z * Z) * float) :=
  if is_terminal m s then []
  else
    let '(x, y) := s in
    let succ_up := (x, Z.min (nrows m) (y + 1)) in
    let succ_right := (Z.min (ncols m) (x + 1), y) in
    let succ_down := (x, Z.max 1 (y - 1)) in
    let succ_left := (Z.max 1 (x - 1), y) in
    let succ__prob : list ((Z * Z) * float) := [] in
    if String.eqb action "up" then
      dict_iadd succ_left (prob_side m)
        (dict_iadd succ_right (prob_side m)
           (dict_set succ_up (prob_forw m) succ__prob))
    else if String.eqb action "right" then
      dict_iadd succ_down (prob_side m)
        (dict_iadd succ_up (prob_side m)
           (dict_set succ_right (prob_forw m) succ__prob))
    else if String.eqb action "down" then
      dict_iadd succ_left (prob_side m)
        (dict_iadd succ_right (prob_side m)
           (dict_set succ_down (prob_forw m) succ__prob))
    else if String.eqb action "left" then
      dict_iadd succ_down (prob_side m)
        (dict_iadd succ_up (prob_side m)
           (dict_set succ_left (prob_forw m) succ__prob))
    else succ__prob.

(** [max(a, b)]: [b] only when [b > a], which a NaN never satisfies. *)
Definition py_max (a b : float) : float := if a <? b then b else a.

Definition utility_prob_sum (prob_state_dict : list ((Z * Z) * float))
    (utility_dict : gmap (Z * Z) float) : outcome float :=
  for_each
    (fun sum_val '(suc, prob) =>
       u ← subscript utility_dict suc; Ret (sum_val + prob * u))
    prob_state_dict 0.

Definition vi_init_step (m : MDP) (acc : gmap (Z * Z) float * float)
    (s : state) : gmap (Z * Z) float * float :=
  let '(utilities, min_reward) := acc in
  let u := get_reward m s in
  (<[s := u]> utilities, if u <? min_reward then u else min_reward).

Definition vi_init (m : MDP) : gmap (Z * Z) float * float :=
  fold_left (vi_init_step m) (get_states m) (∅, infinity).

Definition sweep_state (m : MDP) (gamma min_reward : float)
    (utilities : gmap (Z * Z) float) (acc : gmap (Z * Z) float * float)
    (s : state) : outcome (gmap (Z * Z) float * float) :=
  let '(updated_utilities, convergence_val) := acc in
  temp ← subscript utilities s;
  max_val ← for_each
               (fun max_val action =>
                  e ← utility_prob_sum (get_successor_probs m s action)
                         utilities;
                  Ret (py_max max_val e))
               (get_actions m s) min_reward;
  let new := get_reward m s + gamma * max_val in
  Ret (<[s := new]> updated_utilities,
       py_max convergence_val (abs (temp - new))).

Definition sweep (m : MDP) (gamma min_reward : float)
    (utilities updated_utilities : gmap (Z * Z) float)
    : outcome (gmap (Z * Z) float * float) :=
  for_each (sweep_state m gamma min_reward utilities) (get_states m)
    (updated_utilities, 0).

Definition copy_back (updated_utilities utilities : gmap (Z * Z) float)
    : gmap (Z * Z) float :=
  map_fold (fun state v u => <[state := v]> u) utilities updated_utilities.

Fixpoint vi_loop (fuel : nat) (m : MDP) (gamma epsilon min_reward : float)
    (utilities updated_utilities : gmap (Z * Z) float)
    : outcome (gmap (Z * Z) float) :=
  match fuel with
  | O => Timeout
  | S fuel' =>
      '(updated_utilities, convergence_val) ←
         sweep m gamma min_reward utilities updated_utilities;
      let utilities := copy_back updated_utilities utilities in
      if convergence_val <=? epsilon then Ret updated_utilities
      else vi_loop fuel' m gamma epsilon min_reward utilities
             updated_utilities
  end.

Definition value_iteration (fuel : nat) (m : MDP) (gamma epsilon : float)
    : outcome (gmap (Z * Z) float) :=
  let '(utilities, min_reward) := vi_init m in
  vi_loop fuel m gamma epsilon min_reward utilities ∅.

(** [[prob*utility[s_p] for s_p, prob in d.items()]]. *)
Fixpoint weighted_terms (d : list ((Z * Z) * float))
    (utility : gmap (Z * Z) float) : outcome (list float) :=
  match d with
  | [] => Ret []
  | (s_p, prob) :: d' =>
      u ← subscript utility s_p;
      rest ← weighted_terms d' utility;
      Ret (prob * u :: rest)
  end.

(** The builtin [sum]: from 0, left to right. *)
Definition py_sum (l : list float) : float := fold_left add l 0.

Definition policy_action_step (m : MDP) (utility : gmap (Z * Z) float)
    (s : state) (acc : option string * float) (a : string)
    : outcome (option string * float) :=
  let '(best_action, best_utility) := acc in
  terms ← weighted_terms (get_successor_probs m s a) utility;
  let exp_util := py_sum terms in
  if best_utility <? exp_util then Ret (Some a, exp_util)
  else Ret (best_action, best_utility).

Definition policy_state_step (m : MDP) (utility : gmap (Z * Z) float)
    (policy : policy_map) (s : state) : outcome policy_map :=
  if is_terminal m s then Ret (<[s := None]> policy)
  else
    '(best_action, _) ←
       for_each (policy_action_step m utility s) (get_actions m s)
         (None, neg_infinity);
    Ret (<[s := best_action]> policy).

Definition derive_policy (m : MDP) (utility : gmap (Z * Z) float)
    : outcome policy_map :=
  for_each (policy_state_step m utility) (get_states m) ∅.

(** *** Reading the code over doubles *)

Definition keys (d : list ((Z * Z) * float)) : list state := map fst d.

Definition covers (U : gmap (Z * Z) float) (l : list state) : Prop :=
  forall k, In k l -> is_Some (U !! k).

(** [U[k]] when the key is present (and [0.0] otherwise, never used where
    a lemma below requires the key). *)
Definition util_at (U : gmap (Z * Z) float) (k : state) : float :=
  default 0 (U !! k).

(** The value that the loop of [utility_prob_sum] accumulates. *)
Fixpoint ups_value (d : list ((Z * Z) * float)) (U : gmap (Z * Z) float)
    (sum_val : float) : float :=
  match d with
  | [] => sum_val
  | (suc, prob) :: d' => ups_value d' U (sum_val + prob * util_at U suc)
  end.

(** The value of [max_val] after the loop over the actions. *)
Definition max_over (m : MDP) (U : gmap (Z * Z) float) (s : state)
    (acts : list string) (max_val : float) : float :=
  fold_left
    (fun mv a => py_max mv (ups_value (get_successor_probs m s a) U 0))
    acts max_val.

(** What a sweep stores for [s], as a function of the snapshot [U] alone. *)
Definition bellman (m : MDP) (gamma min_reward : float)
    (U : gmap (Z * Z) float) (s : state) : float :=
  get_reward m s + gamma * max_over m U s (get_actions m s) min_reward.

(** The dictionary [updated_utilities] after the sweep has visited [l]. *)
Definition sweep_values (m : MDP) (gamma min_reward : float)
    (U : gmap (Z * Z) float) (l : list state)
    (updated : gmap (Z * Z) float) : gmap (Z * Z) float :=
  fold_left (fun u s => <[s := bellman m gamma min_reward U s]> u) l updated.

(** [convergence_val] after the sweep has visited [l]. *)
Definition sweep_change (m : MDP) (gamma min_reward : float)
    (U : gmap (Z * Z) float) (l : list state) (convergence_val : float)
    : float :=
  fold_left
    (fun c s => py_max c (abs (util_at U s - bellman m gamma min_reward U s)))
    l convergence_val.

(** The snapshot and [updated_utilities] after [n] passes of the [while]
    loop none of which ended it; [None] when one of them would have. *)
Fixpoint sweeps (n : nat) (m : MDP) (gamma epsilon min_reward : float)
    (utilities updated_utilities : gmap (Z * Z) float)
    : option (gmap (Z * Z) float * gmap (Z * Z) float) :=
  match n with
  | O => Some (utilities, updated_utilities)
  | S n' =>
      match sweep m gamma min_reward utilities updated_utilities with
      | Ret (updated_utilities, convergence_val) =>
          if convergence_val <=? epsilon then None
          else sweeps n' m gamma epsilon min_reward
                 (copy_back updated_utilities utilities) updated_utilities
      | _ => None
      end
  end.

(** The value of [exp_util] in [derive_policy]. *)
Definition exp_util_value (m : MDP) (U : gmap (Z * Z) float) (s : state)
    (a : string) : float :=
  py_sum (map (fun '(k, p) => p * util_at U k) (get_successor_probs m s a)).

(** One pass of the loop over the actions in [derive_policy]. *)
Definition best_step (m : MDP) (U : gmap (Z * Z) float) (s : state)
    (acc : option string * float) (a : string) : option string * float :=
  if acc.2 <? exp_util_value m U s a
  then (Some a, exp_util_value m U s a) else acc.

(** What [derive_policy] stores for [s]. *)
Definition policy_choice (m : MDP) (U : gmap (Z * Z) float) (s : state)
    : option string :=
  if is_terminal m s then None
  else (fold_left (best_step m U s) (get_actions m s)
          (None, neg_infinity)).1.

(** [(ba, bu)] is the first action of [pre] with the greatest value, in
    the order of the doubles. *)
Definition first_best (value : string -> float) (pre : list string)
    (acc : option string * float) : Prop :=
  match acc with
  | (None, e) => pre = [] /\ e = neg_infinity
  | (Some a, e) =>
      e = value a /\
      exists i, pre !! i = Some a /\
        forall j b, pre !! j = Some b ->
          (value b <=? value a) = true /\
          ((j < i)%nat -> (value b <? value a) = true)
  end.

(** The rational that a double stands for; [None] for an infinity or a
    NaN. *)
Definition exact (x : float) : option Q :=
  match Prim2SF x with
  | S754_zero _ => Some 0%Q
  | S754_finite s mant e =>
      Some ((if s then - inject_Z (Z.pos mant) else inject_Z (Z.pos mant))
            * Qpower 2 e)%Q
  | _ => None
  end.

(** *** The words of the specification over doubles *)

(** One step in a direction, a blocked coordinate staying unchanged. *)
Definition step (m : MDP) (dir : string) (s : state) : state :=
  let '(x, y) := s in
  if String.eqb dir "up" then
    (if decide (y + 1 <= nrows m)%Z then (x, y + 1)%Z else (x, y))
  else if String.eqb dir "right" then
    (if decide (x + 1 <= ncols m)%Z then (x + 1, y)%Z else (x, y))
  else if String.eqb dir "down" then
    (if decide (1 <= y - 1)%Z then (x, y - 1)%Z else (x, y))
  else
    (if decide (1 <= x - 1)%Z then (x - 1, y)%Z else (x, y)).

(** The three attempted moves with their probabilities, unmerged. *)
Definition attempts (m : MDP) (s : state) (action : string)
    : list ((Z * Z) * float) :=
  [ (step m action s, prob_forw m);
    (step m (fst (Spec.sides action)) s, (1 - prob_forw m) / 2);
    (step m (snd (Spec.sides action)) s, (1 - prob_forw m) / 2) ].


(** The builtin [sum] over the values of a mapping. *)
Definition total_prob (d : list ((Z * Z) * float)) : float :=
  py_sum (map snd d).

Definition in_grid (m : MDP) (s : state) : Prop :=
  (1 <= fst s <= ncols m)%Z /\ (1 <= snd s <= nrows m)%Z.

(** What [__init__] establishes and nothing changes afterwards. *)
Record constructed (m : MDP) : Prop := {
  constructed_states : states m = grid_states (nrows m) (ncols m);
  constructed_side : prob_side m = (1 - prob_forw m) / 2;
  constructed_actions : actions m = four_actions
}.

(** *** Scenarios over doubles *)

(** The grid of [test1]. *)
Definition test_rewards (r22 : float) : gmap (Z * Z) float :=
  <[(2, 2)%Z := r22]> (<[(3, 2)%Z := 20]> (<[(1, 2)%Z := -1]>
    (<[(3, 1)%Z := -1]> (<[(2, 1)%Z := -1]> {[ (1, 1)%Z := -1 ]})))).

Definition gridworld1 : MDP :=
  MDP_init 2 3 (test_rewards (-10)) [(3, 2)%Z] 0x1.999999999999ap-1 0.

(** The utilities that [test1] computes, with discount 0.8 and threshold
    0.01: 5.2064, 2.8614, 8.6914, 3.7992, 13.5818 and 20 to four places. *)
Definition test1_utilities : gmap (Z * Z) float :=
  <[(1, 1)%Z := 0x1.4d35750d92d92p+2]>
    (<[(1, 2)%Z := 0x1.6e41760f0c522p+1]>
       (<[(2, 1)%Z := 0x1.161fecaface83p+3]>
          (<[(2, 2)%Z := 0x1.e64b91eef83d0p+1]>
             (<[(3, 1)%Z := 0x1.b29e05dfe96d2p+3]>
                {[ (3, 2)%Z := 20 ]})))).


(** A 3x3 grid with rewards 1e16 and -1e16 at two cells and -1e18
    elsewhere, moves being certain. *)
Definition seesaw : MDP :=
  MDP_init 3 3 (<[(2, 2)%Z := 1e16]> {[ (2, 1)%Z := -1e16 ]}) [] 1 (-1e18).


(** Two cells in a row, rewards -100 and -1, forward probability 0.25. *)
Definition slow_pair : MDP :=
  MDP_init 1 2 {[ (2, 1)%Z := -1 ]} [] 0.25 (-100).

(** Two cells in a row and a forward probability of 3, outside [0,1]; the
    constructor accepts it. *)
Definition skewed_pair : MDP :=
  MDP_init 1 2 (<[(1, 1)%Z := -2]> {[ (2, 1)%Z := 1 ]}) [] 3 0.

End F64.

(** ** Lemmas on the control structures *)

Lemma for_each_app {A B : Type} (body : B -> A -> outcome B) l1 l2 acc :
  for_each body (l1 ++ l2) acc = (acc' ← for_each body l1 acc; for_each body l2 acc').
Proof.
  revert acc; induction l1 as [|x l1 IH]; intros acc; simpl; [done|].
  destruct (body acc x); simpl; auto.
Qed.

Lemma subscript_Some {V : Type} (d : gmap (Z * Z) V) k v :
  d !! k = Some v -> subscript d k = Ret v.
Proof. unfold subscript; intros ->; done. Qed.

Lemma subscript_None {V : Type} (d : gmap (Z * Z) V) k :
  d !! k = None -> subscript d k = KeyError k.
Proof. unfold subscript; intros ->; done. Qed.

Lemma util_at_Some U k v : U !! k = Some v -> util_at U k = v.
Proof. unfold util_at; intros ->; done. Qed.

Lemma py_max_cases a b :
  (a < b /\ py_max a b = b) \/ (b <= a /\ py_max a b = a).
Proof. unfold py_max; destruct (Qlt_le_dec a b); auto. Qed.

Lemma py_max_Qmax a b : py_max a b == Qmax a b.
Proof.
  destruct (py_max_cases a b) as [[H ->]|[H ->]].
  - symmetry; apply Q.max_r; lra.
  - symmetry; apply Q.max_l; lra.
Qed.

Lemma py_max_close a b c d e :
  Qabs (a - c) <= e -> Qabs (b - d) <= e ->
  Qabs (py_max a b - py_max c d) <= e.
Proof.
  rewrite !Qabs_Qle_condition.
  destruct (py_max_cases a b) as [[? ->]|[? ->]],
           (py_max_cases c d) as [[? ->]|[? ->]]; lra.
Qed.

(** ** Lemmas on the successor dictionary *)

Lemma keys_dict_iadd c k v d :
  In c (keys (dict_iadd k v d)) <-> c = k \/ In c (keys d).
Proof.
  induction d as [|[k' v'] d IH]; simpl.
  - intuition congruence.
  - case_decide; simpl; [subst|rewrite IH]; intuition congruence.
Qed.

Lemma NoDup_dict_iadd k v d :
  List.NoDup (keys d) -> List.NoDup (keys (dict_iadd k v d)).
Proof.
  induction d as [|[k' v'] d IH]; simpl; intros Hnd.
  - constructor; [simpl; tauto|constructor].
  - inversion Hnd as [|? ? Hnotin Hnd']; subst.
    case_decide; simpl; constructor; auto.
    rewrite keys_dict_iadd. intros [->|?]; contradiction.
Qed.

Lemma mass_dict_iadd c k v d :
  mass c (dict_iadd k v d) == mass c d + (if decide (k = c) then v else 0).
Proof.
  induction d as [|[k' v'] d IH]; simpl.
  - case_decide; lra.
  - destruct (decide (k' = k)) as [->|Hne]; simpl.
    + case_decide; lra.
    + rewrite IH. lra.
Qed.

Lemma total_dict_iadd k v d :
  total_prob (dict_iadd k v d) == total_prob d + v.
Proof.
  induction d as [|[k' v'] d IH]; simpl.
  - lra.
  - case_decide; simpl; [|rewrite IH]; lra.
Qed.

Lemma nonneg_dict_iadd k v d :
  0 <= v -> nonneg d -> nonneg (dict_iadd k v d).
Proof.
  intros Hv. induction d as [|[k' v'] d IH]; simpl; intros Hd c p.
  - intros [[= <- <-]|[]]. lra.
  - assert (0 <= v') by (apply (Hd k'); simpl; auto).
    assert (nonneg d) by (intros ? ? ?; eapply Hd; simpl; eauto).
    case_decide; simpl.
    + intros [[= <- <-]|?]; [lra|eauto].
    + intros [[= <- <-]|?]; [lra|]. eapply IH; eauto.
Qed.

Lemma mass_not_key c d : ~ In c (keys d) -> mass c d == 0.
Proof.
  intros Hc. induction d as [|[k p] d IH]; simpl in *; [lra|].
  case_decide; [tauto|]. rewrite IH by tauto. lra.
Qed.

Lemma mass_NoDup c p d :
  List.NoDup (keys d) -> In (c, p) d -> mass c d == p.
Proof.
  induction d as [|[k q] d IH]; simpl; [tauto|].
  intros Hnd Hin. inversion Hnd as [|? ? Hnotin Hnd']; subst.
  destruct Hin as [[= -> ->]|Hin].
  - rewrite decide_True by done.
    pose proof (mass_not_key c d Hnotin). lra.
  - rewrite decide_False.
    + rewrite IH by auto. lra.
    + intros ->. apply Hnotin. change c with (fst (c, p)). by apply in_map.
Qed.

Lemma expectation_ups_value d U acc :
  ups_value d U acc == acc + expectation d U.
Proof.
  revert acc; induction d as [|[k p] d IH]; intros acc; simpl.
  - lra.
  - rewrite IH. lra.
Qed.

Lemma utility_prob_sum_loop_covered d U acc :
  covers U (keys d) ->
  for_each
    (fun sum_val '(suc, prob) =>
       u ← subscript U suc; Ret (sum_val + prob * u)) d acc
  = Ret (ups_value d U acc).
Proof.
  revert acc; induction d as [|[k p] d IH]; intros acc Hc; simpl; [done|].
  destruct (Hc k) as [u Hu]; [simpl; auto|].
  rewrite (subscript_Some _ _ _ Hu); simpl.
  rewrite (util_at_Some _ _ _ Hu). apply IH.
  intros k' Hk'. apply Hc. simpl; auto.
Qed.

Lemma utility_prob_sum_covered d U :
  covers U (keys d) -> utility_prob_sum d U = Ret (ups_value d U 0).
Proof. apply utility_prob_sum_loop_covered. Qed.

Lemma utility_prob_sum_loop_missing d U acc k :
  In k (keys d) -> U !! k = None ->
  exists k',
    for_each
      (fun sum_val '(suc, prob) =>
         u ← subscript U suc; Ret (sum_val + prob * u)) d acc
    = KeyError k'.
Proof.
  revert acc; induction d as [|[k0 p] d IH]; intros acc Hin Hk; simpl in *;
    [tauto|].
  destruct (U !! k0) as [u|] eqn:Hu.
  - rewrite (subscript_Some _ _ _ Hu); simpl.
    destruct Hin as [->|Hin]; [congruence|]. by apply IH.
  - rewrite (subscript_None _ _ Hu); simpl. eauto.
Qed.

(** A convex combination moves by no more than its arguments do. *)
Lemma expectation_close d U V e :
  nonneg d -> 0 <= e ->
  (forall k, In k (keys d) -> Qabs (util_at U k - util_at V k) <= e) ->
  Qabs (expectation d U - expectation d V) <= total_prob d * e.
Proof.
  intros Hd He.
  induction d as [|[k p] d IH]; cbn [expectation total_prob keys map fst];
    intros Hclose.
  - apply Qabs_Qle_condition. lra.
  - assert (Hp : 0 <= p) by (apply (Hd k); simpl; auto).
    assert (Hk := Hclose k (or_introl eq_refl)).
    assert (IH' : Qabs (expectation d U - expectation d V)
                  <= total_prob d * e).
    { apply IH.
      - intros ? ? ?; eapply Hd; simpl; eauto.
      - intros k' Hk'. apply Hclose. simpl; auto. }
    apply Qabs_Qle_condition in Hk, IH'. apply Qabs_Qle_condition.
    nra.
Qed.

(** ** The grid and the transition law *)

Lemma MDP_init_constructed nr nc rw tm pf rd :
  constructed (MDP_init nr nc rw tm pf rd).
Proof. split; reflexivity. Qed.

Lemma In_py_range i n : In i (py_range n) <-> (0 <= i < n)%Z.
Proof.
  unfold py_range. rewrite in_map_iff. split.
  - intros (k & <- & Hk%in_seq). lia.
  - intros Hi. exists (Z.to_nat i). split; [lia|]. apply in_seq. lia.
Qed.

Lemma In_grid_states nr nc x y :
  In (x, y) (grid_states nr nc) <-> (1 <= x <= nc)%Z /\ (1 <= y <= nr)%Z.
Proof.
  unfold grid_states. rewrite in_flat_map. split.
  - intros (i & Hi%In_py_range & Hin). apply in_map_iff in Hin.
    destruct Hin as (j & [= <- <-] & Hj%In_py_range). lia.
  - intros [Hx Hy]. exists (x - 1)%Z. split; [apply In_py_range; lia|].
    apply in_map_iff. exists (y - 1)%Z. split; [f_equal; lia|].
    apply In_py_range; lia.
Qed.

Lemma In_four_actions a :
  In a four_actions <->
  a = "up"%string \/ a = "right"%string \/ a = "down"%string \/
  a = "left"%string.
Proof. unfold four_actions; simpl; intuition congruence. Qed.

Section Model.

Variable m : MDP.
Hypothesis Hm : constructed m.

Lemma In_get_states s : In s (get_states m) <-> in_grid m s.
Proof.
  destruct s as [x y]. unfold get_states, in_grid.
  rewrite (constructed_states m Hm). apply In_grid_states.
Qed.

Lemma successors_terminal s a :
  is_terminal m s = true -> get_successor_probs m s a = [].
Proof. unfold get_successor_probs; intros ->; done. Qed.

Lemma successors_unknown_action s a :
  ~ In a four_actions -> get_successor_probs m s a = [].
Proof.
  intros Ha. unfold get_successor_probs.
  destruct (is_terminal m s); [done|]. destruct s as [x y].
  destruct (String.eqb_spec a "up") as [->|_];
    [exfalso; apply Ha; apply In_four_actions; auto|].
  destruct (String.eqb_spec a "right") as [->|_];
    [exfalso; apply Ha; apply In_four_actions; auto|].
  destruct (String.eqb_spec a "down") as [->|_];
    [exfalso; apply Ha; apply In_four_actions; auto|].
  destruct (String.eqb_spec a "left") as [->|_];
    [exfalso; apply Ha; apply In_four_actions; auto 6|].
  done.
Qed.

(** The dictionary is built by one assignment and two [+=]. *)
Lemma successors_shape s a :
  is_terminal m s = false -> In a four_actions ->
  exists f s1 s2,
    get_successor_probs m s a
    = dict_iadd s2 (prob_side m) (dict_iadd s1 (prob_side m)
        [(f, prob_forw m)]) /\
    (in_grid m s ->
     f = Spec.step m a s /\
     s1 = Spec.step m (fst (Spec.sides a)) s /\
     s2 = Spec.step m (snd (Spec.sides a)) s /\ 
     in_grid m f /\ in_grid m s1 /\ in_grid m s2).
Proof.
  intros Hnt Ha. unfold get_successor_probs. rewrite Hnt.
  destruct s as [x y]. unfold in_grid, Spec.step. 
  apply In_four_actions in Ha.
  destruct Ha as [ -> | [ -> | [ -> | -> ] ] ]; cbn -[Z.add Z.sub Z.min Z.max];
    do 3 eexists; (split; [reflexivity|]); intros [Hx Hy];
    repeat case_decide; repeat split; cbn [fst snd]; try f_equal; lia.
Qed.

Lemma successors_in_grid s a k :
  in_grid m s -> In k (keys (get_successor_probs m s a)) -> in_grid m k.
Proof.
  intros Hs Hk.
  destruct (is_terminal m s) eqn:Hnt;
    [rewrite successors_terminal in Hk by done; destruct Hk|].
  destruct (in_dec string_dec a four_actions) as [Ha|Ha];
    [|rewrite successors_unknown_action in Hk by done; destruct Hk].
  destruct (successors_shape s a Hnt Ha) as (f & s1 & s2 & Heq & Hgrid).
  destruct (Hgrid Hs) as (_ & _ & _ & Hf & H1 & H2).
  rewrite Heq in Hk. rewrite !keys_dict_iadd in Hk. simpl in Hk.
  destruct Hk as [->|[->|[->|[]]]]; assumption.
Qed.

Lemma successors_total s a :
  is_terminal m s = false -> In a four_actions ->
  total_prob (get_successor_probs m s a) == 1.
Proof.
  intros Hnt Ha.
  destruct (successors_shape s a Hnt Ha) as (f & s1 & s2 & -> & _).
  rewrite !total_dict_iadd. cbn [total_prob].
  rewrite (constructed_side m Hm). field.
Qed.

Lemma successors_total_cases s a :
  total_prob (get_successor_probs m s a) == 0 \/
  total_prob (get_successor_probs m s a) == 1.
Proof.
  destruct (is_terminal m s) eqn:Hnt;
    [left; rewrite successors_terminal by done; reflexivity|].
  destruct (in_dec string_dec a four_actions) as [Ha|Ha];
    [|left; rewrite successors_unknown_action by done; reflexivity].
  right. by apply successors_total.
Qed.

Lemma successors_nonneg s a :
  0 <= prob_forw m <= 1 -> nonneg (get_successor_probs m s a).
Proof.
  intros Hpf.
  destruct (is_terminal m s) eqn:Hnt;
    [rewrite successors_terminal by done; intros ? ? []|].
  destruct (in_dec string_dec a four_actions) as [Ha|Ha];
    [|rewrite successors_unknown_action by done; intros ? ? []].
  destruct (successors_shape s a Hnt Ha) as (f & s1 & s2 & -> & _).
  assert (0 <= prob_side m).
  { rewrite (constructed_side m Hm). unfold Qdiv.
    change (/ 2) with (1 # 2). lra. }
  do 2 (apply nonneg_dict_iadd; [assumption|]).
  intros k p [[= <- <-]|[]]. lra.
Qed.

End Model.

(** ** One sweep *)

Lemma copy_back_lookup (updated U : utility_map) k :
  copy_back updated U !! k
  = match updated !! k with Some v => Some v | None => U !! k end.
Proof.
  unfold copy_back. revert k.
  apply (map_fold_weak_ind
           (fun (r : utility_map) (mm : utility_map) =>
              forall k, r !! k
                = match mm !! k with Some v => Some v | None => U !! k end)).
  - intros k. by rewrite lookup_empty.
  - intros i x mm r Hi IH k. destruct (decide (i = k)) as [->|Hne].
    + by rewrite !lookup_insert_eq.
    + rewrite !lookup_insert_ne by done. apply IH.
Qed.

Lemma fold_insert_in {V : Type} (f : state -> V) (l : list state)
    (u : gmap (Z * Z) V) (k : state) :
  In k l -> fold_left (fun u s => <[s := f s]> u) l u !! k = Some (f k).
Proof.
  revert u. induction l as [|s l IH]; intros u Hk; simpl in *; [tauto|].
  destruct (in_dec (fun a b : state => decide (a = b)) k l)
    as [Hin|Hnotin]; [by apply IH|].
  destruct Hk as [->|?]; [|contradiction].
  clear IH. revert u.
  induction l as [|s l IH]; intros u; simpl.
  - apply lookup_insert_eq.
  - simpl in Hnotin. rewrite insert_insert_ne by tauto. apply IH. tauto.
Qed.

Lemma fold_insert_out {V : Type} (f : state -> V) (l : list state)
    (u : gmap (Z * Z) V) (k : state) :
  ~ In k l -> fold_left (fun u s => <[s := f s]> u) l u !! k = u !! k.
Proof.
  revert u. induction l as [|s l IH]; intros u Hk; simpl in *; [done|].
  rewrite IH by tauto. apply lookup_insert_ne. tauto.
Qed.

Section Sweep.

Variable m : MDP.
Hypothesis Hm : constructed m.
Variables gamma mr : Q.

Section Snapshot.

Variable U : utility_map.
Hypothesis HU : covers U (get_states m).

Lemma covers_successors s a :
  In s (get_states m) -> covers U (keys (get_successor_probs m s a)).
Proof.
  intros Hs k Hk. apply HU. apply (In_get_states m Hm).
  apply (successors_in_grid m s a); [|done].
  by apply (In_get_states m Hm).
Qed.

Lemma actions_loop_ret s acts max_val :
  In s (get_states m) ->
  for_each
    (fun max_val action =>
       e ← utility_prob_sum (get_successor_probs m s action) U;
       Ret (py_max max_val e))
    acts max_val
  = Ret (max_over m U s acts max_val).
Proof.
  intros Hs. revert max_val.
  induction acts as [|a acts IH]; intros max_val; simpl; [done|].
  rewrite utility_prob_sum_covered by by apply covers_successors.
  simpl. apply IH.
Qed.

Lemma sweep_state_ret s updated cv :
  In s (get_states m) ->
  sweep_state m gamma (Some mr) U (updated, cv) s
  = Ret (<[s := bellman m gamma mr U s]> updated,
         py_max cv (Qabs (util_at U s - bellman m gamma mr U s))).
Proof.
  intros Hs. unfold sweep_state.
  destruct (HU s Hs) as [t Ht].
  rewrite (subscript_Some _ _ _ Ht), (util_at_Some _ _ _ Ht).
  cbn [mbind outcome_bind].
  rewrite actions_loop_ret by done. reflexivity.
Qed.

Lemma sweep_loop_ret l updated cv :
  incl l (get_states m) ->
  for_each (sweep_state m gamma (Some mr) U) l (updated, cv)
  = Ret (sweep_values m gamma mr U l updated,
         sweep_change m gamma mr U l cv).
Proof.
  revert updated cv.
  induction l as [|s l IH]; intros updated cv Hl; cbn [for_each];
    [done|].
  rewrite sweep_state_ret by (apply Hl; simpl; auto).
  cbn [mbind outcome_bind]. apply IH. intros k Hk. apply Hl. simpl; auto.
Qed.

Lemma sweep_ret omr updated :
  (get_states m <> [] -> omr = Some mr) ->
  sweep m gamma omr U updated
  = Ret (sweep_values m gamma mr U (get_states m) updated,
         sweep_change m gamma mr U (get_states m) 0).
Proof.
  intros Homr. unfold sweep.
  assert (Hc : get_states m = [] \/ get_states m <> [])
    by (clear; destruct (get_states m); [left|right]; congruence).
  destruct Hc as [Hnil|Hne].
  - rewrite Hnil. reflexivity.
  - rewrite Homr by done. apply sweep_loop_ret. apply incl_refl.
Qed.

End Snapshot.

Lemma sweep_values_in U l updated k :
  In k l ->
  sweep_values m gamma mr U l updated !! k
  = Some (bellman m gamma mr U k).
Proof. apply (fold_insert_in (bellman m gamma mr U)). Qed.

Lemma sweep_values_out U l updated k :
  ~ In k l -> sweep_values m gamma mr U l updated !! k = updated !! k.
Proof. apply (fold_insert_out (bellman m gamma mr U)). Qed.

Lemma sweep_change_cons U s l cv :
  sweep_change m gamma mr U (s :: l) cv
  = sweep_change m gamma mr U l
      (py_max cv (Qabs (util_at U s - bellman m gamma mr U s))).
Proof. reflexivity. Qed.

Lemma sweep_change_ge U l cv : cv <= sweep_change m gamma mr U l cv.
Proof.
  revert cv. induction l as [|s l IH]; intros cv.
  - apply Qle_refl.
  - rewrite sweep_change_cons. eapply Qle_trans; [|apply IH].
    destruct (py_max_cases cv
                (Qabs (util_at U s - bellman m gamma mr U s)))
      as [[? ->]|[? ->]]; lra.
Qed.

Lemma sweep_change_bound U l cv s :
  In s l ->
  Qabs (util_at U s - bellman m gamma mr U s)
  <= sweep_change m gamma mr U l cv.
Proof.
  revert cv. induction l as [|s' l IH]; intros cv Hs; [destruct Hs|].
  rewrite sweep_change_cons.
  destruct Hs as [->|Hs]; [|by apply IH].
  eapply Qle_trans; [|apply sweep_change_ge].
  destruct (py_max_cases cv
              (Qabs (util_at U s - bellman m gamma mr U s)))
    as [[? ->]|[? ->]]; lra.
Qed.

Lemma sweep_change_le U l cv b :
  cv <= b ->
  (forall s, In s l -> Qabs (util_at U s - bellman m gamma mr U s) <= b) ->
  sweep_change m gamma mr U l cv <= b.
Proof.
  revert cv. induction l as [|s l IH]; intros cv Hcv Hl; [done|].
  rewrite sweep_change_cons.
  apply IH; [|intros; apply Hl; simpl; auto].
  destruct (py_max_cases cv
              (Qabs (util_at U s - bellman m gamma mr U s)))
    as [[? ->]|[? ->]]; [apply Hl; simpl; auto|done].
Qed.

Lemma sweep_change_attained U l cv :
  sweep_change m gamma mr U l cv = cv \/
  exists s, In s l /\
    sweep_change m gamma mr U l cv
    = Qabs (util_at U s - bellman m gamma mr U s).
Proof.
  revert cv. induction l as [|s l IH]; intros cv; [by left|].
  rewrite sweep_change_cons.
  destruct (IH (py_max cv (Qabs (util_at U s - bellman m gamma mr U s))))
    as [Heq|(s' & Hs' & Heq)].
  - rewrite Heq.
    destruct (py_max_cases cv
                (Qabs (util_at U s - bellman m gamma mr U s)))
      as [[? ->]|[? ->]]; [right; exists s; simpl; auto|by left].
  - right. exists s'. simpl; auto.
Qed.

End Sweep.

(** ** The sweep is a contraction *)

Section Contraction.

Variable m : MDP.
Hypothesis Hm : constructed m.
Variables gamma mr : Q.
Hypothesis Hpf : 0 <= prob_forw m <= 1.
Hypothesis Hgamma : 0 <= gamma.

Lemma expected_close U V s a e :
  in_grid m s -> 0 <= e -> close_on_grid m U V e ->
  Qabs (ups_value (get_successor_probs m s a) U 0
        - ups_value (get_successor_probs m s a) V 0) <= e.
Proof.
  intros Hs He Hclose.
  pose proof (expectation_close (get_successor_probs m s a) U V e
                (successors_nonneg m Hm s a Hpf) He) as Hexp.
  assert (Hk : forall k, In k (keys (get_successor_probs m s a)) ->
               Qabs (util_at U k - util_at V k) <= e).
  { intros k Hk. apply Hclose. by apply (successors_in_grid m s a). }
  specialize (Hexp Hk).
  pose proof (expectation_ups_value (get_successor_probs m s a) U 0) as HU.
  pose proof (expectation_ups_value (get_successor_probs m s a) V 0) as HV.
  apply Qabs_Qle_condition in Hexp. apply Qabs_Qle_condition.
  destruct (successors_total_cases m Hm s a) as [Ht|Ht];
    rewrite Ht in Hexp; lra.
Qed.

Lemma max_over_close U V s acts a b e :
  in_grid m s -> 0 <= e -> close_on_grid m U V e ->
  Qabs (a - b) <= e ->
  Qabs (max_over m U s acts a - max_over m V s acts b) <= e.
Proof.
  intros Hs He Hclose. revert a b.
  induction acts as [|act acts IH]; intros a b Hab; [done|].
  unfold max_over in *. cbn [fold_left]. apply IH.
  apply py_max_close; [done|]. by apply expected_close.
Qed.

Lemma bellman_close U V s e :
  in_grid m s -> 0 <= e -> close_on_grid m U V e ->
  Qabs (bellman m gamma mr U s - bellman m gamma mr V s) <= gamma * e.
Proof.
  intros Hs He Hclose. unfold bellman.
  assert (Hmax : Qabs (max_over m U s (get_actions m s) mr
                       - max_over m V s (get_actions m s) mr) <= e).
  { apply max_over_close; try done.
    apply Qabs_Qle_condition. lra. }
  apply Qabs_Qle_condition in Hmax. apply Qabs_Qle_condition.
  generalize dependent (max_over m U s (get_actions m s) mr).
  generalize dependent (max_over m V s (get_actions m s) mr).
  intros a b Hab. nra.
Qed.

End Contraction.

(** ** Geometric decay *)

Lemma decay_proper gamma n x y :
  x == y -> decay gamma x n == decay gamma y n.
Proof.
  revert x y. induction n as [|n IH]; intros x y Hxy; cbn [decay]; [done|].
  apply IH. by rewrite Hxy.
Qed.

Lemma decay_scale gamma b n c :
  decay gamma (c * b) n == c * decay gamma b n.
Proof.
  revert b. induction n as [|n IH]; intros b; cbn [decay]; [reflexivity|].
  rewrite <- IH. apply decay_proper. ring.
Qed.

(** Bernoulli: [gamma^n * (1 + n * (1 - gamma)) <= 1]. *)
Lemma decay_bernoulli gamma n :
  0 <= gamma <= 1 ->
  0 <= decay gamma 1 n <= 1 /\
  decay gamma 1 n * (1 + inject_Z (Z.of_nat n) * (1 - gamma)) <= 1.
Proof.
  intros Hg. induction n as [|n [[IH0 IH1] IH]].
  - cbn [decay]. change (inject_Z (Z.of_nat 0)) with 0.
    split; [split|]; lra.
  - cbn [decay].
    assert (Hstep : decay gamma (gamma * 1) n == gamma * decay gamma 1 n)
      by apply decay_scale.
    assert (Hn : inject_Z (Z.of_nat (S n)) == inject_Z (Z.of_nat n) + 1).
    { rewrite Nat2Z.inj_succ. unfold Z.succ. rewrite inject_Z_plus.
      reflexivity. }
    rewrite Hstep, Hn.
    assert (0 <= inject_Z (Z.of_nat n)).
    { change 0 with (inject_Z 0). rewrite <- Zle_Qle. lia. }
    generalize dependent (decay gamma 1 n).
    generalize dependent (inject_Z (Z.of_nat n)).
    intros k _ Hk a Ha0 Ha1 Ha _. split; [split; nra|].
    assert (H1 : forall x, x <= 1 -> gamma * x <= gamma) by (intros; nra).
    assert (H2 : forall x y, 0 <= y -> x <= 1 -> x * y <= y)
      by (intros; nra).
    pose proof (H1 _ Ha). pose proof (H2 a (1 - gamma)).
    pose proof (H1 (a * (1 - gamma))).
    nra.
Qed.

Lemma archimedean b t :
  0 <= b -> 0 < t -> exists n : nat, b <= inject_Z (Z.of_nat n) * t.
Proof.
  intros Hb Ht. exists (Z.to_nat (Qnum b * Z.pos (Qden t))).
  destruct b as [bn bd], t as [tn td]. unfold Qle, Qlt in *.
  cbn [Qnum Qden] in *. rewrite Z.mul_1_r in *. cbn in Hb, Ht.
  rewrite Z2Nat.id by nia.
  cbn [Qmult inject_Z Qnum Qden Pos.mul]. 
  assert (0 < Z.pos td)%Z by lia. assert (0 < Z.pos bd)%Z by lia.
  assert (bn * Z.pos td <= bn * Z.pos td * tn)%Z by nia.
  assert (bn * Z.pos td * tn * 1 <= bn * Z.pos td * tn * Z.pos bd)%Z by nia.
  lia.
Qed.

(** For [gamma < 1] the decay falls below any positive threshold. *)
Lemma decay_reaches gamma b epsilon :
  0 <= gamma < 1 -> 0 <= b -> 0 < epsilon ->
  exists n, decay gamma b n <= epsilon.
Proof.
  intros Hg Hb He.
  set (t := (1 - gamma) * epsilon).
  assert (Ht : 0 < t) by (unfold t; nra).
  destruct (archimedean b t Hb Ht) as [n Hn].
  exists n.
  destruct (decay_bernoulli gamma n) as [[Ha0 Ha1] Ha]; [lra|].
  assert (Hs : decay gamma b n == b * decay gamma 1 n).
  { rewrite <- decay_scale. apply decay_proper. ring. }
  rewrite Hs.
  assert (Hmul : forall x y z, 0 <= z -> x <= y -> x * z <= y * z)
    by (intros; nra).
  generalize dependent (decay gamma 1 n).
  generalize dependent (inject_Z (Z.of_nat n)).
  intros k Hk a Ha0 Ha1 Ha _.
  assert (H1 : b * a <= k * t * a) by (apply Hmul; done).
  assert (H2 : a * (k * (1 - gamma)) <= 1) by lra.
  assert (H3 : a * (k * (1 - gamma)) * epsilon <= 1 * epsilon)
    by (apply Hmul; lra).
  assert (H4 : k * t * a == a * (k * (1 - gamma)) * epsilon)
    by (unfold t; ring).
  lra.
Qed.

(** ** The first loop of [value_iteration] *)

Lemma vi_init_fold_lookup m l U o k :
  (fold_left (vi_init_step m) l (U, o)).1 !! k
  = if in_dec (fun a b : state => decide (a = b)) k l
    then Some (get_reward m k) else U !! k.
Proof.
  revert U o. induction l as [|s l IH]; intros U o; [done|].
  cbn [fold_left vi_init_step]. rewrite IH.
  destruct (in_dec _ k l) as [Hin|Hnotin], (in_dec _ k (s :: l)) as [Hin'|Hnotin'];
    simpl in *; try tauto.
  - destruct Hin' as [->|?]; [|tauto]. apply lookup_insert_eq.
  - apply lookup_insert_ne. tauto.
Qed.

Lemma vi_init_fold_min m l U mr :
  exists mr',
    (fold_left (vi_init_step m) l (U, Some mr)).2 = Some mr' /\
    mr' <= mr /\
    (forall s, In s l -> mr' <= get_reward m s) /\
    (mr' = mr \/ exists s, In s l /\ mr' = get_reward m s).
Proof.
  revert U mr. induction l as [|s l IH]; intros U mr.
  - exists mr. repeat split; [lra|intros ? []|by left].
  - cbn [fold_left vi_init_step].
    destruct (Qlt_le_dec (get_reward m s) mr) as [Hlt|Hle].
    + destruct (IH (<[s := get_reward m s]> U) (get_reward m s))
        as (mr' & -> & Hle' & Hall & Hatt).
      exists mr'. repeat split; [lra| |].
      * intros s' [<-|Hs']; [done|by apply Hall].
      * right. destruct Hatt as [->|(s' & Hs' & ->)];
          [exists s|exists s']; simpl; auto.
    + destruct (IH (<[s := get_reward m s]> U) mr)
        as (mr' & -> & Hle' & Hall & Hatt).
      exists mr'. repeat split; [done| |].
      * intros s' [<-|Hs']; [lra|by apply Hall].
      * destruct Hatt as [->|(s' & Hs' & ->)]; [by left|].
        right. exists s'. simpl; auto.
Qed.

Lemma vi_init_lookup_in m k :
  In k (get_states m) -> (vi_init m).1 !! k = Some (get_reward m k).
Proof.
  intros Hk. unfold vi_init. rewrite vi_init_fold_lookup.
  destruct (in_dec _ k (get_states m)); [done|contradiction].
Qed.

Lemma vi_init_lookup_out m k :
  ~ In k (get_states m) -> (vi_init m).1 !! k = None.
Proof.
  intros Hk. unfold vi_init. rewrite vi_init_fold_lookup.
  destruct (in_dec _ k (get_states m)); [contradiction|done].
Qed.

Lemma vi_init_min_reward m :
  get_states m <> [] ->
  exists mr, (vi_init m).2 = Some mr /\ Spec.least_reward m mr.
Proof.
  intros Hne. unfold vi_init, Spec.least_reward.
  destruct (get_states m) as [|s l]; [done|].
  cbn [fold_left vi_init_step].
  destruct (vi_init_fold_min m l (<[s := get_reward m s]> ∅) (get_reward m s))
    as (mr & -> & Hle & Hall & Hatt).
  exists mr. split; [done|]. split.
  - destruct Hatt as [->|(s' & Hs' & ->)]; [exists s|exists s'];
      simpl; auto.
  - intros s' [<-|Hs']; [done|by apply Hall].
Qed.

Lemma vi_init_covers m : covers (vi_init m).1 (get_states m).
Proof. intros k Hk. rewrite vi_init_lookup_in by done. eauto. Qed.

(** ** The [while] loop *)

Section Loop.

Variable m : MDP.
Hypothesis Hm : constructed m.
Variables gamma epsilon mr : Q.
Variable omr : option Q.
Hypothesis Homr : get_states m <> [] -> omr = Some mr.

Local Abbreviation values U := (sweep_values m gamma mr U (get_states m)).
Local Abbreviation change U :=
  (sweep_change m gamma mr U (get_states m) 0).

Lemma vi_loop_unfold fuel U updated :
  covers U (get_states m) ->
  vi_loop (S fuel) m gamma epsilon omr U updated
  = if Qle_bool (change U) epsilon then Ret (values U updated)
    else vi_loop fuel m gamma epsilon omr
           (copy_back (values U updated) U) (values U updated).
Proof.
  intros HU. cbn [vi_loop].
  rewrite (sweep_ret m Hm gamma mr U HU omr updated Homr). reflexivity.
Qed.

Lemma copy_back_covers U updated :
  covers U (get_states m) ->
  covers (copy_back (values U updated) U) (get_states m).
Proof.
  intros HU k Hk. rewrite copy_back_lookup.
  rewrite sweep_values_in by done. eauto.
Qed.

Lemma copy_back_util_at U updated k :
  In k (get_states m) ->
  util_at (copy_back (values U updated) U) k = bellman m gamma mr U k.
Proof.
  intros Hk. apply util_at_Some. rewrite copy_back_lookup.
  by rewrite sweep_values_in.
Qed.

Lemma change_nonneg U : 0 <= change U.
Proof. apply sweep_change_ge. Qed.

Hypothesis Hpf : 0 <= prob_forw m <= 1.
Hypothesis Hgamma : 0 <= gamma.

(** After the copy, the next sweep changes [gamma] times less. *)
Lemma next_change U updated b :
  covers U (get_states m) -> 0 <= b ->
  (forall s, In s (get_states m) ->
             Qabs (util_at U s - bellman m gamma mr U s) <= b) ->
  forall s, In s (get_states m) ->
    Qabs (util_at (copy_back (values U updated) U) s
          - bellman m gamma mr (copy_back (values U updated) U) s)
    <= gamma * b.
Proof.
  intros HU Hb Hchange s Hs.
  rewrite copy_back_util_at by done.
  apply (bellman_close m Hm gamma mr Hpf Hgamma); [|done|].
  - by apply (In_get_states m Hm).
  - intros k Hk%(In_get_states m Hm).
    rewrite copy_back_util_at by done. by apply Hchange.
Qed.

Lemma vi_loop_converges n :
  forall U updated b,
    covers U (get_states m) -> 0 <= b ->
    (forall s, In s (get_states m) ->
               Qabs (util_at U s - bellman m gamma mr U s) <= b) ->
    decay gamma b n <= epsilon ->
    exists R,
      vi_loop (S n) m gamma epsilon omr U updated = Ret R /\
      (forall k, In k (get_states m) -> is_Some (R !! k)) /\
      (forall k, ~ In k (get_states m) -> R !! k = updated !! k).
Proof.
  induction n as [|n IH]; intros U updated b HU Hb Hchange Hdecay;
    rewrite vi_loop_unfold by done.
  - assert (Hle : change U <= epsilon).
    { eapply Qle_trans; [|exact Hdecay]. by apply sweep_change_le. }
    apply Qle_bool_iff in Hle. rewrite Hle.
    exists (values U updated). split; [done|]. split.
    + intros k Hk. rewrite sweep_values_in by done. eauto.
    + intros k Hk. by apply sweep_values_out.
  - destruct (Qle_bool (change U) epsilon) eqn:Hle.
    + exists (values U updated). split; [done|]. split.
      * intros k Hk. rewrite sweep_values_in by done. eauto.
      * intros k Hk. by apply sweep_values_out.
    + destruct (IH (copy_back (values U updated) U) (values U updated)
                  (gamma * b)) as (R & HR & Hin & Hout).
      * by apply copy_back_covers.
      * nra.
      * by apply next_change.
      * exact Hdecay.
      * exists R. split; [done|]. split; [done|].
        intros k Hk. rewrite Hout by done. by apply sweep_values_out.
Qed.

(** What the loop returns is one sweep of a snapshot that the sweep
    changed by at most [epsilon]. *)
Lemma vi_loop_returns fuel :
  forall U updated R,
    covers U (get_states m) ->
    vi_loop fuel m gamma epsilon omr U updated = Ret R ->
    exists P,
      covers P (get_states m) /\
      change P <= epsilon /\
      (forall k, In k (get_states m) ->
                 R !! k = Some (bellman m gamma mr P k)) /\
      (forall k, ~ In k (get_states m) -> R !! k = updated !! k).
Proof.
  induction fuel as [|fuel IH]; intros U updated R HU; [done|].
  rewrite vi_loop_unfold by done.
  destruct (Qle_bool (change U) epsilon) eqn:Hle.
  - intros [= <-]. exists U. split; [done|].
    split; [by apply Qle_bool_iff|]. split.
    + intros k Hk. by apply sweep_values_in.
    + intros k Hk. by apply sweep_values_out.
  - intros HR. apply IH in HR; [|by apply copy_back_covers].
    destruct HR as (P & HP & Hc & Hin & Hout).
    exists P. split; [done|]. split; [done|]. split; [done|].
    intros k Hk. rewrite Hout by done. by apply sweep_values_out.
Qed.

(** A further sweep over the returned map changes at most [epsilon]. *)
Lemma resweep_change P R :
  gamma <= 1 ->
  covers P (get_states m) ->
  change P <= epsilon ->
  (forall k, In k (get_states m) ->
             R !! k = Some (bellman m gamma mr P k)) ->
  change R <= epsilon.
Proof.
  intros Hg1 HP Hc HR.
  assert (He : 0 <= epsilon)
    by (eapply Qle_trans; [apply (change_nonneg P)|done]).
  apply sweep_change_le; [done|]. intros s Hs.
  rewrite (util_at_Some _ _ _ (HR s Hs)).
  apply Qle_trans with (gamma * epsilon); [|nra].
  apply (bellman_close m Hm gamma mr Hpf Hgamma); [|done|].
  - by apply (In_get_states m Hm).
  - intros k Hk%(In_get_states m Hm).
    rewrite (util_at_Some _ _ _ (HR k Hk)).
    eapply Qle_trans; [|exact Hc]. by apply sweep_change_bound.
Qed.

End Loop.

(** ** [derive_policy] *)

Lemma py_sum_from l acc : fold_left Qplus l acc == acc + py_sum l.
Proof.
  unfold py_sum. revert acc. induction l as [|x l IH]; intros acc; simpl.
  - lra.
  - rewrite IH, (IH (0 + x)). lra.
Qed.

Lemma exp_util_expectation m U s a :
  exp_util_value m U s a == expectation (get_successor_probs m s a) U.
Proof.
  unfold exp_util_value.
  induction (get_successor_probs m s a) as [|[k p] d IH]; [reflexivity|].
  cbn [map expectation]. unfold py_sum in *. cbn [fold_left].
  rewrite py_sum_from. unfold py_sum. rewrite IH. lra.
Qed.

Lemma weighted_terms_covered d U :
  covers U (keys d) ->
  weighted_terms d U = Ret (map (fun '(k, p) => p * util_at U k) d).
Proof.
  induction d as [|[k p] d IH]; intros Hc; [done|].
  cbn [weighted_terms map].
  destruct (Hc k) as [u Hu]; [simpl; auto|].
  rewrite (subscript_Some _ _ _ Hu), (util_at_Some _ _ _ Hu).
  cbn [mbind outcome_bind]. rewrite IH; [done|].
  intros k' Hk'. apply Hc. simpl; auto.
Qed.

Lemma weighted_terms_missing d U k :
  In k (keys d) -> U !! k = None -> exists k', weighted_terms d U = KeyError k'.
Proof.
  induction d as [|[k0 p] d IH]; intros Hin Hk; simpl in Hin; [tauto|].
  cbn [weighted_terms].
  destruct (U !! k0) as [u|] eqn:Hu.
  - rewrite (subscript_Some _ _ _ Hu). cbn [mbind outcome_bind].
    destruct Hin as [->|Hin]; [congruence|].
    destruct (IH Hin Hk) as [k' ->]. eauto.
  - rewrite (subscript_None _ _ Hu). cbn [mbind outcome_bind]. eauto.
Qed.

Lemma weighted_terms_outcome d U : returns_or_raises (weighted_terms d U).
Proof.
  induction d as [|[k p] d IH]; [done|]. cbn [weighted_terms].
  unfold subscript. destruct (U !! k); cbn [mbind outcome_bind]; [|done].
  destruct (weighted_terms d U); done.
Qed.

Lemma for_each_outcome {A B : Type} (body : B -> A -> outcome B) l acc :
  (forall acc x, returns_or_raises (body acc x)) ->
  returns_or_raises (for_each body l acc).
Proof.
  intros Hbody. revert acc. induction l as [|x l IH]; intros acc; [done|].
  cbn [for_each]. specialize (Hbody acc x).
  destruct (body acc x); cbn [mbind outcome_bind]; auto.
Qed.

Lemma for_each_raises {A B : Type} (body : B -> A -> outcome B) l acc x :
  (forall acc y, returns_or_raises (body acc y)) ->
  In x l ->
  (forall acc, exists k, body acc x = KeyError k) ->
  exists k, for_each body l acc = KeyError k.
Proof.
  intros Hbody Hx Hraise. revert acc.
  induction l as [|y l IH]; intros acc; [destruct Hx|].
  cbn [for_each]. pose proof (Hbody acc y) as Hy.
  destruct (body acc y) as [acc'|k| |] eqn:Hb; cbn [mbind outcome_bind];
    try done; [|eauto].
  destruct Hx as [->|Hx]; [|by apply IH].
  destruct (Hraise acc) as [k Hk]. congruence.
Qed.

Lemma policy_action_step_outcome m U s acc a :
  returns_or_raises (policy_action_step m U s acc a).
Proof.
  unfold policy_action_step. destruct acc as [ba bu].
  pose proof (weighted_terms_outcome (get_successor_probs m s a) U) as Hw.
  destruct (weighted_terms _ U); cbn [mbind outcome_bind]; try done.
  destruct (gt_best _ _); done.
Qed.

Lemma policy_state_step_outcome m U policy s :
  returns_or_raises (policy_state_step m U policy s).
Proof.
  unfold policy_state_step. destruct (is_terminal m s); [done|].
  pose proof (for_each_outcome (policy_action_step m U s)
                (get_actions m s) (None, None)
                (policy_action_step_outcome m U s)) as Hf.
  destruct (for_each _ _ _) as [[ba bu]| | |]; done.
Qed.

(** The first action with the greatest value stays the best one. *)
Lemma first_best_step value pre acc a :
  first_best value pre acc ->
  first_best value (pre ++ [a])
    (if gt_best (value a) acc.2 then (Some a, Some (value a)) else acc).
Proof.
  destruct acc as [[b|] [e|]]; cbn [first_best gt_best snd]; try done.
  - intros (-> & i & Hi & Hbest).
    destruct (Qlt_le_dec (value b) (value a)) as [Hlt|Hle].
    + split; [done|]. exists (length pre). split.
      * by rewrite lookup_app_r, Nat.sub_diag.
      * intros j c Hj. destruct (decide (j < length pre)%nat) as [Hlen|Hlen].
        -- rewrite lookup_app_l in Hj by done.
           destruct (Hbest j c Hj) as [Hle _]. split; [lra|intros _; lra].
        -- rewrite lookup_app_r in Hj by lia.
           destruct (j - length pre)%nat eqn:Hd; [|done].
           injection Hj as <-. split; [lra|lia].
    + split; [done|]. exists i. split.
      * apply lookup_app_l_Some. done.
      * intros j c Hj. destruct (decide (j < length pre)%nat) as [Hlen|Hlen].
        -- rewrite lookup_app_l in Hj by done. by apply Hbest.
        -- rewrite lookup_app_r in Hj by lia.
           destruct (j - length pre)%nat eqn:Hd; [|done].
           injection Hj as <-. split; [done|].
           apply lookup_lt_Some in Hi. lia.
  - intros ->. split; [done|]. exists 0%nat. split; [done|].
    intros [|j] c Hj; [|done]. injection Hj as <-. split; [lra|lia].
Qed.

Lemma first_best_fold m U s acts pre acc :
  first_best (exp_util_value m U s) pre acc ->
  first_best (exp_util_value m U s) (pre ++ acts)
    (fold_left (best_step m U s) acts acc).
Proof.
  revert pre acc. induction acts as [|a acts IH]; intros pre acc Hacc.
  - by rewrite app_nil_r.
  - cbn [fold_left]. replace (pre ++ a :: acts) with ((pre ++ [a]) ++ acts)
      by by rewrite <- app_assoc.
    apply IH. by apply first_best_step.
Qed.

Section Policy.

Variable m : MDP.
Hypothesis Hm : constructed m.
Variable U : utility_map.

Lemma policy_action_step_ret s acc a :
  covers U (keys (get_successor_probs m s a)) ->
  policy_action_step m U s acc a = Ret (best_step m U s acc a).
Proof.
  intros Hc. destruct acc as [ba bu]. unfold policy_action_step.
  rewrite weighted_terms_covered by done. cbn [mbind outcome_bind].
  fold (exp_util_value m U s a). unfold best_step. cbn [snd].
  by destruct (gt_best _ bu).
Qed.

Lemma policy_actions_ret s acts acc :
  (forall a, In a acts -> covers U (keys (get_successor_probs m s a))) ->
  for_each (policy_action_step m U s) acts acc
  = Ret (fold_left (best_step m U s) acts acc).
Proof.
  revert acc. induction acts as [|a acts IH]; intros acc Hc; [done|].
  cbn [for_each fold_left].
  rewrite policy_action_step_ret by (apply Hc; simpl; auto).
  cbn [mbind outcome_bind]. apply IH; intros; apply Hc; simpl; auto.
Qed.

Lemma policy_state_ret s policy :
  covers U (get_states m) -> In s (get_states m) ->
  policy_state_step m U policy s
  = Ret (<[s := policy_choice m U s]> policy).
Proof.
  intros HU Hs. unfold policy_state_step, policy_choice.
  destruct (is_terminal m s); [done|].
  rewrite policy_actions_ret
    by (intros; by apply (covers_successors m Hm U HU)).
  cbn [mbind outcome_bind].
  by destruct (fold_left _ _ _).
Qed.

Lemma derive_policy_loop_ret l policy :
  covers U (get_states m) -> incl l (get_states m) ->
  for_each (policy_state_step m U) l policy
  = Ret (fold_left (fun p s => <[s := policy_choice m U s]> p) l policy).
Proof.
  intros HU. revert policy. induction l as [|s l IH]; intros policy Hl;
    [done|].
  cbn [for_each fold_left].
  rewrite policy_state_ret by (try done; apply Hl; simpl; auto).
  cbn [mbind outcome_bind]. apply IH. intros k Hk. apply Hl; simpl; auto.
Qed.

Lemma policy_state_raises s a k policy :
  is_terminal m s = false -> In a (get_actions m s) ->
  In k (keys (get_successor_probs m s a)) -> U !! k = None ->
  exists k', policy_state_step m U policy s = KeyError k'.
Proof.
  intros Hnt Ha Hk HUk. unfold policy_state_step. rewrite Hnt.
  destruct (for_each_raises (policy_action_step m U s) (get_actions m s)
              (None, None) a (policy_action_step_outcome m U s) Ha)
    as [k' ->]; [|cbn [mbind outcome_bind]; eauto].
  intros [ba bu]. unfold policy_action_step.
  destruct (weighted_terms_missing _ U k Hk HUk) as [k' ->].
  cbn [mbind outcome_bind]. eauto.
Qed.

End Policy.

(** ** More on the loop, and the comparison with the specification *)

Lemma py_max_Qmax_proper a b a' b' :
  a == a' -> b == b' -> py_max a b == Qmax a' b'.
Proof.
  intros Ha Hb. rewrite py_max_Qmax. by rewrite Ha, Hb.
Qed.

Lemma vi_init_min_total m :
  exists mr, get_states m <> [] -> (vi_init m).2 = Some mr.
Proof.
  destruct (vi_init m).2 as [mr|] eqn:Hinit; [by exists mr|].
  exists 0. intros Hne.
  destruct (vi_init_min_reward m Hne) as (mr & Hmr & _). congruence.
Qed.

Lemma value_iteration_unfold fuel m gamma epsilon :
  value_iteration fuel m gamma epsilon
  = vi_loop fuel m gamma epsilon (vi_init m).2 (vi_init m).1 ∅.
Proof. unfold value_iteration. by destruct (vi_init m). Qed.

Section MoreFuel.

Variable m : MDP.
Hypothesis Hm : constructed m.
Variables gamma epsilon mr : Q.
Variable omr : option Q.
Hypothesis Homr : get_states m <> [] -> omr = Some mr.

(** A run that returned returns the same with more fuel. *)
Lemma vi_loop_more_fuel fuel :
  forall fuel' U updated R,
    (fuel <= fuel')%nat -> covers U (get_states m) ->
    vi_loop fuel m gamma epsilon omr U updated = Ret R ->
    vi_loop fuel' m gamma epsilon omr U updated = Ret R.
Proof.
  induction fuel as [|fuel IH]; intros fuel' U updated R Hle HU; [done|].
  destruct fuel' as [|fuel']; [lia|].
  rewrite !(vi_loop_unfold m Hm gamma epsilon mr omr Homr) by done.
  destruct (Qle_bool _ _); [done|].
  apply IH; [lia|by apply copy_back_covers].
Qed.

(** At a terminal state the maximum is taken over four empty sums. *)
Lemma bellman_terminal U s :
  is_terminal m s = true ->
  bellman m gamma mr U s == get_reward m s + gamma * Qmax mr 0.
Proof.
  intros Hterm. unfold bellman, max_over, get_actions.
  rewrite (constructed_actions m Hm). cbn [four_actions fold_left].
  rewrite !successors_terminal by done. cbn [ups_value].
  assert (Hmax : py_max (py_max (py_max (py_max mr 0) 0) 0) 0
                 == Qmax mr 0).
  { assert (Hidem : forall x, 0 <= x -> py_max x 0 = x).
    { intros x Hx. destruct (py_max_cases x 0) as [[? _]|[_ ->]];
        [lra|done]. }
    assert (0 <= py_max mr 0)
      by (destruct (py_max_cases mr 0) as [[? ->]|[? ->]]; lra).
    rewrite !(Hidem (py_max mr 0)) by done. apply py_max_Qmax. }
  rewrite Hmax. reflexivity.
Qed.

(** The four-action loop computes the maximum of the specification. *)
Lemma max_over_spec U s :
  max_over m U s (get_actions m s) mr == Spec.max_val m mr U s.
Proof.
  unfold max_over, get_actions, Spec.max_val.
  rewrite (constructed_actions m Hm). cbn [four_actions fold_left].
  repeat (apply py_max_Qmax_proper;
          [|rewrite expectation_ups_value; lra]).
  reflexivity.
Qed.

End MoreFuel.

(** With a forward probability in [0,1], a discount in [0,1) and a positive
    threshold, some number of sweeps makes the loop return. *)
Lemma value_iteration_returns m gamma epsilon :
  constructed m ->
  0 <= prob_forw m <= 1 -> 0 <= gamma < 1 -> 0 < epsilon ->
  exists n R,
    value_iteration (S n) m gamma epsilon = Ret R /\
    (forall k, In k (get_states m) -> is_Some (R !! k)) /\
    (forall k, ~ In k (get_states m) -> R !! k = None).
Proof.
  intros Hm Hpf Hgamma Heps.
  destruct (vi_init_min_total m) as [mr Homr].
  pose proof (vi_init_covers m) as HU0.
  set (b := sweep_change m gamma mr (vi_init m).1 (get_states m) 0).
  assert (Hb : 0 <= b) by apply sweep_change_ge.
  destruct (decay_reaches gamma b epsilon Hgamma Hb Heps) as [n Hn].
  destruct (vi_loop_converges m Hm gamma epsilon mr (vi_init m).2 Homr
              Hpf (proj1 Hgamma) n (vi_init m).1 ∅ b HU0 Hb)
    as (R & HR & Hin & Hout); [|done|].
  { intros s Hs. by apply sweep_change_bound. }
  exists n, R. rewrite value_iteration_unfold. split; [done|].
  split; [done|]. intros k Hk. by rewrite (Hout k Hk), lookup_empty.
Qed.

(** ** The loop follows the sweeps of the specification *)

Lemma expectation_agree (d : succ_dict) (U V : utility_map) :
  (forall k, In k (keys d) -> util_at U k == util_at V k) ->
  expectation d U == expectation d V.
Proof.
  induction d as [|[k p] d IH]; intros Hagree; cbn [expectation];
    [reflexivity|].
  rewrite (Hagree k) by (simpl; auto).
  rewrite IH; [reflexivity|]. intros k' Hk'. apply Hagree. simpl; auto.
Qed.

Section Trajectory.

Variable m : MDP.
Hypothesis Hm : constructed m.
Variables gamma epsilon mr : Q.
Variable omr : option Q.
Hypothesis Homr : get_states m <> [] -> omr = Some mr.

Lemma max_val_agree (U V : utility_map) (s : state) :
  In s (get_states m) ->
  (forall k, In k (get_states m) -> util_at U k == util_at V k) ->
  Spec.max_val m mr U s == Spec.max_val m mr V s.
Proof.
  intros Hs Hagree. unfold Spec.max_val.
  assert (He : forall a,
             expectation (get_successor_probs m s a) U
             == expectation (get_successor_probs m s a) V).
  { intros a. apply expectation_agree. intros k Hk. apply Hagree.
    apply (In_get_states m Hm). apply (successors_in_grid m s a); [|done].
    by apply (In_get_states m Hm). }
  by rewrite !He.
Qed.

Lemma update_util_at (V : utility_map) (s : state) :
  In s (get_states m) ->
  util_at (Spec.update m gamma mr V) s
  = get_reward m s + gamma * Spec.max_val m mr V s.
Proof.
  intros Hs. apply util_at_Some. unfold Spec.update.
  by rewrite (fold_insert_in
                (fun s => get_reward m s + gamma * Spec.max_val m mr V s)).
Qed.

(** What a sweep of the code stores agrees with one sweep of the
    specification over any snapshot that agrees with the code's. *)
Lemma bellman_update (U V : utility_map) (s : state) :
  In s (get_states m) ->
  (forall k, In k (get_states m) -> util_at U k == util_at V k) ->
  bellman m gamma mr U s == util_at (Spec.update m gamma mr V) s.
Proof.
  intros Hs Hagree. rewrite update_util_at by done. unfold bellman.
  rewrite (max_over_spec m Hm mr U s).
  by rewrite (max_val_agree U V s Hs Hagree).
Qed.

(** The map the loop returns is the snapshot of the specification after
    as many sweeps as the loop made, at least one and at most [fuel]. *)
Lemma vi_loop_trajectory fuel :
  forall (U updated V R : utility_map),
    covers U (get_states m) ->
    (forall k, In k (get_states m) -> util_at U k == util_at V k) ->
    vi_loop fuel m gamma epsilon omr U updated = Ret R ->
    exists n, (n < fuel)%nat /\
      forall s, In s (get_states m) ->
        exists u, R !! s = Some u /\
                  u == util_at (Spec.sweeps m gamma mr (S n) V) s.
Proof.
  induction fuel as [|fuel IH]; intros U updated V R HU Hagree; [done|].
  rewrite (vi_loop_unfold m Hm gamma epsilon mr omr Homr) by done.
  destruct (Qle_bool _ epsilon).
  - intros [= <-]. exists 0%nat. split; [lia|]. intros s Hs.
    exists (bellman m gamma mr U s). split; [by apply sweep_values_in|].
    cbn [Spec.sweeps]. by apply bellman_update.
  - intros HR.
    apply (IH _ _ (Spec.update m gamma mr V)) in HR.
    + destruct HR as (n & Hn & HR). exists (S n). split; [lia|]. exact HR.
    + by apply copy_back_covers.
    + intros k Hk. rewrite (copy_back_util_at m gamma mr) by done.
      by apply bellman_update.
Qed.

End Trajectory.

Lemma rewards_map_util_at (m : MDP) (s : state) :
  In s (get_states m) -> util_at (Spec.rewards_map m) s = get_reward m s.
Proof.
  intros Hs. apply util_at_Some. unfold Spec.rewards_map.
  by rewrite (fold_insert_in (get_reward m)).
Qed.

(** [value_iteration] returns the snapshot of the specification, started
    from the rewards, after as many sweeps as the loop made. *)
Lemma value_iteration_trajectory (m : MDP) (fuel : nat) (gamma epsilon mr : Q)
    (U : utility_map) :
  constructed m ->
  (get_states m <> [] -> (vi_init m).2 = Some mr) ->
  value_iteration fuel m gamma epsilon = Ret U ->
  exists n, (n < fuel)%nat /\
    forall s, In s (get_states m) ->
      exists u, U !! s = Some u /\
                u == util_at (Spec.sweeps m gamma mr (S n)
                                (Spec.rewards_map m)) s.
Proof.
  intros Hm Homr. rewrite value_iteration_unfold.
  apply (vi_loop_trajectory m Hm gamma epsilon mr (vi_init m).2 Homr).
  - apply vi_init_covers.
  - intros k Hk. rewrite rewards_map_util_at by done.
    by rewrite (util_at_Some _ _ _ (vi_init_lookup_in m k Hk)).
Qed.

(** ** The program over doubles *)

Section Doubles.

Import PrimFloat SpecFloat FloatOps FloatAxioms.
Local Open Scope float_scope.

(** *** The order of the doubles *)












(** *** The successor dictionary *)

Lemma keys_dict_iadd_f64 c k v d :
  In c (F64.keys (F64.dict_iadd k v d)) <-> c = k \/ In c (F64.keys d).
Proof.
  induction d as [|[k' v'] d IH]; simpl.
  - intuition congruence.
  - case_decide; simpl; [subst|rewrite IH]; intuition congruence.
Qed.


Lemma MDP_init_constructed_f64 nr nc rw tm pf rd :
  F64.constructed (F64.MDP_init nr nc rw tm pf rd).
Proof. split; reflexivity. Qed.

Section ModelF64.

Variable m : F64.MDP.
Hypothesis Hm : F64.constructed m.

Lemma In_get_states_f64 s : In s (F64.get_states m) <-> F64.in_grid m s.
Proof.
  destruct s as [x y]. unfold F64.get_states, F64.in_grid.
  rewrite (F64.constructed_states m Hm). apply In_grid_states.
Qed.

Lemma successors_terminal_f64 s a :
  F64.is_terminal m s = true -> F64.get_successor_probs m s a = [].
Proof. unfold F64.get_successor_probs; intros ->; done. Qed.

Lemma successors_unknown_action_f64 s a :
  ~ In a four_actions -> F64.get_successor_probs m s a = [].
Proof.
  intros Ha. unfold F64.get_successor_probs.
  destruct (F64.is_terminal m s); [done|]. destruct s as [x y].
  destruct (String.eqb_spec a "up") as [->|_];
    [exfalso; apply Ha; apply In_four_actions; auto|].
  destruct (String.eqb_spec a "right") as [->|_];
    [exfalso; apply Ha; apply In_four_actions; auto|].
  destruct (String.eqb_spec a "down") as [->|_];
    [exfalso; apply Ha; apply In_four_actions; auto|].
  destruct (String.eqb_spec a "left") as [->|_];
    [exfalso; apply Ha; apply In_four_actions; auto 6|].
  done.
Qed.

(** The dictionary is built by one assignment and two [+=]. *)
Lemma successors_shape_f64 s a :
  F64.is_terminal m s = false -> In a four_actions ->
  exists f s1 s2,
    F64.get_successor_probs m s a
    = F64.dict_iadd s2 (F64.prob_side m)
        (F64.dict_iadd s1 (F64.prob_side m) [(f, F64.prob_forw m)]) /\
    (F64.in_grid m s ->
     f = F64.step m a s /\
     s1 = F64.step m (fst (Spec.sides a)) s /\
     s2 = F64.step m (snd (Spec.sides a)) s /\
     F64.in_grid m f /\ F64.in_grid m s1 /\ F64.in_grid m s2).
Proof.
  intros Hnt Ha. unfold F64.get_successor_probs. rewrite Hnt.
  destruct s as [x y]. unfold F64.in_grid, F64.step.
  apply In_four_actions in Ha.
  destruct Ha as [ -> | [ -> | [ -> | -> ] ] ]; cbn -[Z.add Z.sub Z.min Z.max];
    do 3 eexists; (split; [reflexivity|]); intros [Hx Hy];
    repeat case_decide; repeat split; cbn [fst snd]; try f_equal; lia.
Qed.

Lemma successors_in_grid_f64 s a k :
  F64.in_grid m s -> In k (F64.keys (F64.get_successor_probs m s a)) ->
  F64.in_grid m k.
Proof.
  intros Hs Hk.
  destruct (F64.is_terminal m s) eqn:Hnt;
    [rewrite successors_terminal_f64 in Hk by done; destruct Hk|].
  destruct (in_dec string_dec a four_actions) as [Ha|Ha];
    [|rewrite successors_unknown_action_f64 in Hk by done; destruct Hk].
  destruct (successors_shape_f64 s a Hnt Ha) as (f & s1 & s2 & Heq & Hgrid).
  destruct (Hgrid Hs) as (_ & _ & _ & Hf & H1 & H2).
  rewrite Heq in Hk. rewrite !keys_dict_iadd_f64 in Hk. simpl in Hk.
  destruct Hk as [->|[->|[->|[]]]]; assumption.
Qed.

End ModelF64.

(** *** [utility_prob_sum] and one sweep *)

Lemma subscript_util_at_f64 (U : gmap (Z * Z) float) k :
  is_Some (U !! k) -> subscript U k = Ret (F64.util_at U k).
Proof. intros [v Hv]. unfold subscript, F64.util_at. by rewrite Hv. Qed.

Lemma utility_prob_sum_loop_covered_f64 d U acc :
  F64.covers U (F64.keys d) ->
  for_each
    (fun sum_val '(suc, prob) =>
       u ← subscript U suc; Ret (sum_val + prob * u)) d acc
  = Ret (F64.ups_value d U acc).
Proof.
  revert acc; induction d as [|[k p] d IH]; intros acc Hc; simpl; [done|].
  rewrite subscript_util_at_f64 by (apply Hc; simpl; auto). simpl.
  apply IH. intros k' Hk'. apply Hc. simpl; auto.
Qed.

Lemma utility_prob_sum_covered_f64 d U :
  F64.covers U (F64.keys d) ->
  F64.utility_prob_sum d U = Ret (F64.ups_value d U 0).
Proof. apply utility_prob_sum_loop_covered_f64. Qed.

Lemma weighted_terms_covered_f64 d U :
  F64.covers U (F64.keys d) ->
  F64.weighted_terms d U
  = Ret (map (fun '(k, p) => p * F64.util_at U k) d).
Proof.
  induction d as [|[k p] d IH]; intros Hc; simpl; [done|].
  rewrite subscript_util_at_f64 by (apply Hc; simpl; auto). simpl.
  rewrite IH; [done|]. intros k' Hk'. apply Hc. simpl; auto.
Qed.

Lemma copy_back_lookup_f64 (updated U : gmap (Z * Z) float) k :
  F64.copy_back updated U !! k
  = match updated !! k with Some v => Some v | None => U !! k end.
Proof.
  unfold F64.copy_back. revert k.
  apply (map_fold_weak_ind
           (fun (r : gmap (Z * Z) float) (mm : gmap (Z * Z) float) =>
              forall k, r !! k
                = match mm !! k with Some v => Some v | None => U !! k end)).
  - intros k. by rewrite lookup_empty.
  - intros i x mm r Hi IH k. destruct (decide (i = k)) as [->|Hne].
    + by rewrite !lookup_insert_eq.
    + rewrite !lookup_insert_ne by done. apply IH.
Qed.

Section SweepF64.

Variable m : F64.MDP.
Hypothesis Hm : F64.constructed m.
Variables gamma mr : float.

Section SnapshotF64.

Variable U : gmap (Z * Z) float.
Hypothesis HU : F64.covers U (F64.get_states m).

Lemma covers_successors_f64 s a :
  In s (F64.get_states m) ->
  F64.covers U (F64.keys (F64.get_successor_probs m s a)).
Proof.
  intros Hs k Hk. apply HU. apply (In_get_states_f64 m Hm).
  apply (successors_in_grid_f64 m s a); [|done].
  by apply (In_get_states_f64 m Hm).
Qed.

Lemma actions_loop_ret_f64 s acts max_val :
  In s (F64.get_states m) ->
  for_each
    (fun max_val action =>
       e ← F64.utility_prob_sum (F64.get_successor_probs m s action) U;
       Ret (F64.py_max max_val e))
    acts max_val
  = Ret (F64.max_over m U s acts max_val).
Proof.
  intros Hs. revert max_val.
  induction acts as [|a acts IH]; intros max_val; simpl; [done|].
  rewrite utility_prob_sum_covered_f64 by by apply covers_successors_f64.
  simpl. apply IH.
Qed.

Lemma sweep_state_ret_f64 s updated cv :
  In s (F64.get_states m) ->
  F64.sweep_state m gamma mr U (updated, cv) s
  = Ret (<[s := F64.bellman m gamma mr U s]> updated,
         F64.py_max cv (abs (F64.util_at U s - F64.bellman m gamma mr U s))).
Proof.
  intros Hs. unfold F64.sweep_state.
  rewrite subscript_util_at_f64 by by apply HU.
  cbn [mbind outcome_bind].
  rewrite actions_loop_ret_f64 by done. reflexivity.
Qed.

Lemma sweep_loop_ret_f64 l updated cv :
  incl l (F64.get_states m) ->
  for_each (F64.sweep_state m gamma mr U) l (updated, cv)
  = Ret (F64.sweep_values m gamma mr U l updated,
         F64.sweep_change m gamma mr U l cv).
Proof.
  revert updated cv.
  induction l as [|s l IH]; intros updated cv Hl; cbn [for_each];
    [done|].
  rewrite sweep_state_ret_f64 by (apply Hl; simpl; auto).
  cbn [mbind outcome_bind]. apply IH. intros k Hk. apply Hl. simpl; auto.
Qed.

Lemma sweep_ret_f64 updated :
  F64.sweep m gamma mr U updated
  = Ret (F64.sweep_values m gamma mr U (F64.get_states m) updated,
         F64.sweep_change m gamma mr U (F64.get_states m) 0).
Proof. unfold F64.sweep. apply sweep_loop_ret_f64. apply incl_refl. Qed.

End SnapshotF64.

Lemma sweep_values_in_f64 U l updated k :
  In k l ->
  F64.sweep_values m gamma mr U l updated !! k
  = Some (F64.bellman m gamma mr U k).
Proof. apply (fold_insert_in (F64.bellman m gamma mr U)). Qed.

Lemma sweep_values_out_f64 U l updated k :
  ~ In k l -> F64.sweep_values m gamma mr U l updated !! k = updated !! k.
Proof. apply (fold_insert_out (F64.bellman m gamma mr U)). Qed.

Variable epsilon : float.

Lemma vi_loop_unfold_f64 fuel U updated :
  F64.covers U (F64.get_states m) ->
  F64.vi_loop (S fuel) m gamma epsilon mr U updated
  = if F64.sweep_change m gamma mr U (F64.get_states m) 0 <=? epsilon
    then Ret (F64.sweep_values m gamma mr U (F64.get_states m) updated)
    else F64.vi_loop fuel m gamma epsilon mr
           (F64.copy_back
              (F64.sweep_values m gamma mr U (F64.get_states m) updated) U)
           (F64.sweep_values m gamma mr U (F64.get_states m) updated).
Proof.
  intros HU. cbn [F64.vi_loop]. rewrite (sweep_ret_f64 U HU updated).
  reflexivity.
Qed.

Lemma copy_back_covers_f64 U updated :
  F64.covers U (F64.get_states m) ->
  F64.covers
    (F64.copy_back
       (F64.sweep_values m gamma mr U (F64.get_states m) updated) U)
    (F64.get_states m).
Proof.
  intros HU k Hk. rewrite copy_back_lookup_f64.
  rewrite sweep_values_in_f64 by done. eauto.
Qed.

(** The loop raises no [KeyError]; what it returns is one sweep of a
    snapshot that has an entry for every state, and that sweep changed no
    value by more than [epsilon] as the comparison of doubles sees it. *)
Lemma vi_loop_outcome_f64 fuel :
  forall U updated,
    F64.covers U (F64.get_states m) ->
    F64.vi_loop fuel m gamma epsilon mr U updated = Timeout \/
    exists P,
      F64.covers P (F64.get_states m) /\
      (F64.sweep_change m gamma mr P (F64.get_states m) 0 <=? epsilon)
      = true /\
      F64.vi_loop fuel m gamma epsilon mr U updated
      = Ret (F64.sweep_values m gamma mr P (F64.get_states m)
               (F64.sweep_values m gamma mr U (F64.get_states m) updated)).
Proof.
  induction fuel as [|fuel IH]; intros U updated HU; [by left|].
  rewrite vi_loop_unfold_f64 by done.
  destruct (_ <=? epsilon) eqn:Hle.
  - right. exists U. split; [done|]. split; [done|]. f_equal.
    apply map_eq. intros k.
    destruct (in_dec (fun a b : state => decide (a = b)) k
                (F64.get_states m)) as [Hin|Hout].
    + by rewrite !sweep_values_in_f64.
    + by rewrite !sweep_values_out_f64.
  - destruct (IH (F64.copy_back
                    (F64.sweep_values m gamma mr U (F64.get_states m)
                       updated) U)
                (F64.sweep_values m gamma mr U (F64.get_states m) updated))
      as [->|(P & HP & Hc & ->)]; [by apply copy_back_covers_f64|by left|].
    right. exists P. split; [done|]. split; [done|]. f_equal.
    apply map_eq. intros k.
    destruct (in_dec (fun a b : state => decide (a = b)) k
                (F64.get_states m)) as [Hin|Hout].
    + by rewrite !sweep_values_in_f64.
    + by rewrite !sweep_values_out_f64.
Qed.

End SweepF64.

(** *** The first loop of [value_iteration] *)

Lemma vi_init_fold_lookup_f64 m l U o k :
  (fold_left (F64.vi_init_step m) l (U, o)).1 !! k
  = if in_dec (fun a b : state => decide (a = b)) k l
    then Some (F64.get_reward m k) else U !! k.
Proof.
  revert U o. induction l as [|s l IH]; intros U o; [done|].
  cbn [fold_left F64.vi_init_step]. rewrite IH.
  destruct (in_dec _ k l) as [Hin|Hnotin], (in_dec _ k (s :: l)) as [Hin'|Hnotin'];
    simpl in *; try tauto.
  - destruct Hin' as [->|?]; [|tauto]. apply lookup_insert_eq.
  - apply lookup_insert_ne. tauto.
Qed.

Lemma vi_init_lookup_in_f64 m k :
  In k (F64.get_states m) ->
  (F64.vi_init m).1 !! k = Some (F64.get_reward m k).
Proof.
  intros Hk. unfold F64.vi_init. rewrite vi_init_fold_lookup_f64.
  destruct (in_dec _ k (F64.get_states m)); [done|contradiction].
Qed.

Lemma vi_init_covers_f64 m : F64.covers (F64.vi_init m).1 (F64.get_states m).
Proof. intros k Hk. rewrite vi_init_lookup_in_f64 by done. eauto. Qed.

Lemma value_iteration_unfold_f64 fuel m gamma epsilon :
  F64.value_iteration fuel m gamma epsilon
  = F64.vi_loop fuel m gamma epsilon (F64.vi_init m).2 (F64.vi_init m).1 ∅.
Proof. unfold F64.value_iteration. by destruct (F64.vi_init m). Qed.

(** [value_iteration] returns or is still sweeping; what it returns has
    an entry for every state and for nothing else, and is one sweep of a
    snapshot that the sweep changed by at most [epsilon]. *)
Lemma value_iteration_outcome_f64 fuel m gamma epsilon :
  F64.constructed m ->
  F64.value_iteration fuel m gamma epsilon = Timeout \/
  exists P,
    F64.covers P (F64.get_states m) /\
    (F64.sweep_change m gamma (F64.vi_init m).2 P (F64.get_states m) 0
     <=? epsilon) = true /\
    F64.value_iteration fuel m gamma epsilon
    = Ret (F64.sweep_values m gamma (F64.vi_init m).2 P (F64.get_states m)
             ∅).
Proof.
  intros Hm. rewrite value_iteration_unfold_f64.
  destruct (vi_loop_outcome_f64 m Hm gamma (F64.vi_init m).2 epsilon fuel
              (F64.vi_init m).1 ∅ (vi_init_covers_f64 m))
    as [->|(P & HP & Hc & ->)]; [by left|].
  right. exists P. split; [done|]. split; [done|]. f_equal.
  apply map_eq. intros k.
  destruct (in_dec (fun a b : state => decide (a = b)) k
              (F64.get_states m)) as [Hin|Hout].
  - by rewrite !sweep_values_in_f64.
  - by rewrite !sweep_values_out_f64.
Qed.

(** *** [derive_policy] *)




(** The action chosen, if any, is one of those tried. *)
Lemma best_step_among_f64 m U s acts acc :
  (fold_left (F64.best_step m U s) acts acc).1 = acc.1 \/
  exists a, In a acts /\
            (fold_left (F64.best_step m U s) acts acc).1 = Some a.
Proof.
  revert acc. induction acts as [|a acts IH]; intros acc; [by left|].
  cbn [fold_left].
  destruct (IH (F64.best_step m U s acc a)) as [->|(b & Hb & ->)].
  - unfold F64.best_step. destruct (_ <? _); [|by left].
    right. exists a. simpl; auto.
  - right. exists b. simpl; auto.
Qed.

Section PolicyF64.

Variable m : F64.MDP.
Hypothesis Hm : F64.constructed m.
Variable U : gmap (Z * Z) float.

Lemma policy_action_step_ret_f64 s acc a :
  F64.covers U (F64.keys (F64.get_successor_probs m s a)) ->
  F64.policy_action_step m U s acc a = Ret (F64.best_step m U s acc a).
Proof.
  intros Hc. destruct acc as [ba bu]. unfold F64.policy_action_step.
  rewrite weighted_terms_covered_f64 by done. cbn [mbind outcome_bind].
  fold (F64.exp_util_value m U s a). unfold F64.best_step. cbn [snd].
  by destruct (bu <? _).
Qed.

Lemma policy_actions_ret_f64 s acts acc :
  (forall a, In a acts ->
             F64.covers U (F64.keys (F64.get_successor_probs m s a))) ->
  for_each (F64.policy_action_step m U s) acts acc
  = Ret (fold_left (F64.best_step m U s) acts acc).
Proof.
  revert acc. induction acts as [|a acts IH]; intros acc Hc; [done|].
  cbn [for_each fold_left].
  rewrite policy_action_step_ret_f64 by (apply Hc; simpl; auto).
  cbn [mbind outcome_bind]. apply IH; intros; apply Hc; simpl; auto.
Qed.

Lemma policy_state_ret_f64 s policy :
  F64.covers U (F64.get_states m) -> In s (F64.get_states m) ->
  F64.policy_state_step m U policy s
  = Ret (<[s := F64.policy_choice m U s]> policy).
Proof.
  intros HU Hs. unfold F64.policy_state_step, F64.policy_choice.
  destruct (F64.is_terminal m s); [done|].
  rewrite policy_actions_ret_f64
    by (intros; by apply (covers_successors_f64 m Hm U HU)).
  cbn [mbind outcome_bind].
  by destruct (fold_left _ _ _).
Qed.

Lemma derive_policy_loop_ret_f64 l policy :
  F64.covers U (F64.get_states m) -> incl l (F64.get_states m) ->
  for_each (F64.policy_state_step m U) l policy
  = Ret (fold_left (fun p s => <[s := F64.policy_choice m U s]> p) l policy).
Proof.
  intros HU. revert policy. induction l as [|s l IH]; intros policy Hl;
    [done|].
  cbn [for_each fold_left].
  rewrite policy_state_ret_f64 by (try done; apply Hl; simpl; auto).
  cbn [mbind outcome_bind]. apply IH. intros k Hk. apply Hl; simpl; auto.
Qed.

Lemma derive_policy_ret_f64 :
  F64.covers U (F64.get_states m) ->
  F64.derive_policy m U
  = Ret (fold_left (fun p s => <[s := F64.policy_choice m U s]> p)
           (F64.get_states m) ∅).
Proof.
  intros HU. unfold F64.derive_policy.
  apply derive_policy_loop_ret_f64; [done|apply incl_refl].
Qed.

End PolicyF64.

(** *** A loop that comes back to a snapshot never ends *)

Lemma vi_loop_after_sweeps_f64 n :
  forall fuel m gamma epsilon mr U updated U' updated',
    F64.sweeps n m gamma epsilon mr U updated = Some (U', updated') ->
    F64.vi_loop (n + fuel) m gamma epsilon mr U updated
    = F64.vi_loop fuel m gamma epsilon mr U' updated'.
Proof.
  induction n as [|n IH]; intros fuel m gamma epsilon mr U updated U' updated'.
  - by intros [= -> ->].
  - cbn [F64.sweeps Nat.add F64.vi_loop].
    destruct (F64.sweep m gamma mr U updated) as [[u cv]| | |]; try done.
    cbn [mbind outcome_bind]. destruct (cv <=? epsilon); [done|]. apply IH.
Qed.

Lemma vi_loop_during_sweeps_f64 n :
  forall fuel m gamma epsilon mr U updated,
    is_Some (F64.sweeps n m gamma epsilon mr U updated) ->
    (fuel <= n)%nat ->
    F64.vi_loop fuel m gamma epsilon mr U updated = Timeout.
Proof.
  induction n as [|n IH]; intros fuel m gamma epsilon mr U updated Hs Hle.
  - by replace fuel with 0%nat by lia.
  - destruct fuel as [|fuel]; [done|].
    cbn [F64.sweeps F64.vi_loop] in *.
    destruct (F64.sweep m gamma mr U updated) as [[u cv]| | |];
      try by destruct Hs.
    cbn [mbind outcome_bind]. destruct (cv <=? epsilon); [by destruct Hs|].
    apply IH; [done|lia].
Qed.

Lemma vi_loop_cycle_f64 p m gamma epsilon mr U updated :
  F64.sweeps (S p) m gamma epsilon mr U updated = Some (U, updated) ->
  forall fuel, F64.vi_loop fuel m gamma epsilon mr U updated = Timeout.
Proof.
  intros Hcycle fuel. induction (lt_wf fuel) as [fuel _ IH].
  destruct (le_lt_dec fuel (S p)) as [Hle|Hgt].
  - apply (vi_loop_during_sweeps_f64 (S p)); [by rewrite Hcycle|done].
  - replace fuel with (S p + (fuel - S p))%nat by lia.
    rewrite (vi_loop_after_sweeps_f64 (S p) _ _ _ _ _ _ _ _ _ Hcycle).
    apply IH. lia.
Qed.

(** If the snapshot after [n] sweeps comes back after [S p] more, none
    of these sweeps having ended the loop, [value_iteration] never
    returns. *)
Lemma value_iteration_cycle_f64 n p m gamma epsilon :
  match F64.sweeps n m gamma epsilon (F64.vi_init m).2 (F64.vi_init m).1 ∅
  with
  | Some (U, updated) =>
      F64.sweeps (S p) m gamma epsilon (F64.vi_init m).2 U updated
      = Some (U, updated)
  | None => False
  end ->
  forall fuel, F64.value_iteration fuel m gamma epsilon = Timeout.
Proof.
  destruct (F64.sweeps n m gamma epsilon (F64.vi_init m).2 (F64.vi_init m).1
              ∅) as [[U updated]|] eqn:Hn; [|done].
  intros Hp fuel. rewrite value_iteration_unfold_f64.
  destruct (le_lt_dec fuel n) as [Hle|Hgt].
  - apply (vi_loop_during_sweeps_f64 n); [by rewrite Hn|done].
  - replace fuel with (n + (fuel - n))%nat by lia.
    rewrite (vi_loop_after_sweeps_f64 n _ _ _ _ _ _ _ _ _ Hn).
    by apply (vi_loop_cycle_f64 p).
Qed.

(** *** What [get_successor_probs] stores *)


End Doubles.

(** ** The claims *)

(** C1.  In the one-cell world, whose only state is terminal with reward 1,
    every action has the empty successor mapping, and [value_iteration]
    with discount 1/2 returns 3/2 for that state, not its reward. *)
Theorem terminal_utility_one_cell :
  is_terminal one_cell (1, 1)%Z = true /\
  (forall a, get_successor_probs one_cell (1, 1)%Z a = []) /\
  get_reward one_cell (1, 1)%Z = 1 /\
  value_iteration 2 one_cell (1 # 2) (1 # 100) = Ret one_cell_result /\
  one_cell_result !! (1, 1)%Z = Some (3 # 2) /\
  ~ 3 # 2 == get_reward one_cell (1, 1)%Z.
Proof.
  split; [done|]. split; [done|]. split; [done|].
  split; [by vm_compute|]. split; [done|]. by vm_compute.
Qed.

Section Claims.

Variables num_rows num_cols : Z.
Variable rewards : gmap (Z * Z) Q.
Variable terminals : list state.
Variables prob_forw reward_default : Q.

Local Abbreviation M :=
  (MDP_init num_rows num_cols rewards terminals prob_forw reward_default).

(** What the code computes at a terminal state: the reward plus the
    discounted maximum of [min_reward] and 0, which is the reward itself
    only when some reward is not positive (or the discount is 0). *)
Lemma terminal_utility_value (fuel : nat) (gamma epsilon : Q)
    (U : utility_map) (s : state) :
  value_iteration fuel M gamma epsilon = Ret U ->
  In s (get_states M) -> is_terminal M s = true ->
  exists mr u,
    (vi_init M).2 = Some mr /\ U !! s = Some u /\
    u == get_reward M s + gamma * Qmax mr 0.
Proof.
  intros Hret Hs Hterm.
  pose proof (MDP_init_constructed num_rows num_cols rewards terminals
                prob_forw reward_default) as HM.
  assert (Hne : get_states M <> []) by (intros Hnil; by rewrite Hnil in Hs).
  destruct (vi_init_min_reward M Hne) as (mr & Hmr & _).
  rewrite value_iteration_unfold in Hret.
  apply (vi_loop_returns M HM gamma epsilon mr (vi_init M).2) in Hret;
    [|done|apply vi_init_covers].
  destruct Hret as (P & _ & _ & Hin & _).
  exists mr, (bellman M gamma mr P s). split; [done|]. split; [auto|].
  by apply (bellman_terminal M HM).
Qed.

(** It is the reward itself as soon as some state has a reward that is
    not positive, as in every scenario of the tests. *)
Lemma terminal_utility_with_nonpositive_reward (fuel : nat)
    (gamma epsilon : Q) (U : utility_map) (s s' : state) :
  value_iteration fuel M gamma epsilon = Ret U ->
  In s (get_states M) -> is_terminal M s = true ->
  In s' (get_states M) -> get_reward M s' <= 0 ->
  exists u, U !! s = Some u /\ u == get_reward M s.
Proof.
  intros Hret Hs Hterm Hs' Hneg.
  destruct (terminal_utility_value fuel gamma epsilon U s Hret Hs Hterm)
    as (mr & u & Hmr & Hu & Heq).
  assert (Hne : get_states M <> []) by (intros Hnil; by rewrite Hnil in Hs).
  destruct (vi_init_min_reward M Hne) as (mr' & Hmr' & _ & Hleast).
  assert (mr' = mr) as -> by congruence.
  specialize (Hleast s' Hs').
  exists u. split; [done|]. rewrite Heq, Q.max_r by lra. ring.
Qed.

(** C2.  [value_iteration] starts from the map that sends every state to
    its reward and from [min_reward], the least reward over the states;
    each sweep stores for every state [reward(s) + discount * max_val],
    [max_val] being the maximum of [min_reward] and of the four
    probability-weighted sums of utilities over the successor mappings;
    and what [value_iteration] returns is the result of sweeping in this
    way, from the rewards, as many times as the loop went round, at
    least once. *)
Theorem value_iteration_update_rule :
  get_states M <> [] ->
  exists mr,
    (vi_init M).2 = Some mr /\ Spec.least_reward M mr /\
    (forall s, In s (get_states M) ->
               (vi_init M).1 !! s = Some (get_reward M s)) /\
    (forall fuel gamma epsilon,
        value_iteration fuel M gamma epsilon
        = vi_loop fuel M gamma epsilon (Some mr) (vi_init M).1 ∅) /\
    (forall gamma (U updated : utility_map),
        covers U (get_states M) ->
        exists updated' cv,
          sweep M gamma (Some mr) U updated = Ret (updated', cv) /\
          forall s, In s (get_states M) ->
            exists v, updated' !! s = Some v /\
              v == get_reward M s + gamma * Spec.max_val M mr U s) /\
    (forall (fuel : nat) (gamma epsilon : Q) (U : utility_map),
        value_iteration fuel M gamma epsilon = Ret U ->
        exists n, (n < fuel)%nat /\
          forall s, In s (get_states M) ->
            exists u, U !! s = Some u /\
              u == util_at (Spec.sweeps M gamma mr (S n)
                              (Spec.rewards_map M)) s).
Proof.
  intros Hne.
  pose proof (MDP_init_constructed num_rows num_cols rewards terminals
                prob_forw reward_default) as HM.
  destruct (vi_init_min_reward M Hne) as (mr & Hmr & Hleast).
  exists mr. split; [done|]. split; [done|]. split; [|split; [|split]].
  - intros s Hs. by apply vi_init_lookup_in.
  - intros fuel gamma epsilon. by rewrite value_iteration_unfold, Hmr.
  - intros gamma U updated HU.
    rewrite (sweep_ret M HM gamma mr U HU (Some mr) updated) by done.
    do 2 eexists. split; [reflexivity|]. intros s Hs.
    exists (bellman M gamma mr U s). split; [by apply sweep_values_in|].
    unfold bellman. by rewrite (max_over_spec M HM mr U s).
  - intros fuel gamma epsilon U.
    by apply (value_iteration_trajectory M fuel gamma epsilon mr U HM).
Qed.

(** C5.  A sweep over a snapshot [U] stores for every state a value
    computed from [U] alone, leaves the other keys of
    [updated_utilities] alone, and yields as [convergence_val] the
    largest absolute change (0 when there is no state); the copy that
    follows makes the snapshot agree with [updated_utilities] on every
    state; the loop returns [updated_utilities] when that change is at
    most [epsilon] and sweeps again from the copy otherwise. *)
Theorem sweeps_are_synchronous (fuel : nat) (gamma epsilon mr : Q)
    (U updated : utility_map) :
  covers U (get_states M) ->
  exists updated' cv,
    sweep M gamma (Some mr) U updated = Ret (updated', cv) /\
    (forall s, In s (get_states M) ->
               updated' !! s = Some (bellman M gamma mr U s)) /\
    (forall s, ~ In s (get_states M) -> updated' !! s = updated !! s) /\
    (forall s, In s (get_states M) ->
               Qabs (util_at U s - bellman M gamma mr U s) <= cv) /\
    (cv = 0 \/
     exists s, In s (get_states M) /\
               cv = Qabs (util_at U s - bellman M gamma mr U s)) /\
    (forall s, In s (get_states M) ->
               copy_back updated' U !! s = updated' !! s) /\
    (cv <= epsilon ->
     vi_loop (S fuel) M gamma epsilon (Some mr) U updated
     = Ret updated') /\
    (~ cv <= epsilon ->
     vi_loop (S fuel) M gamma epsilon (Some mr) U updated
     = vi_loop fuel M gamma epsilon (Some mr)
         (copy_back updated' U) updated').
Proof.
  intros HU.
  pose proof (MDP_init_constructed num_rows num_cols rewards terminals
                prob_forw reward_default) as HM.
  assert (Homr : get_states M <> [] -> Some mr = Some mr) by done.
  exists (sweep_values M gamma mr U (get_states M) updated),
         (sweep_change M gamma mr U (get_states M) 0).
  split; [by apply (sweep_ret M HM gamma mr U HU)|].
  split; [intros; by apply sweep_values_in|].
  split; [intros; by apply sweep_values_out|].
  split; [intros; by apply sweep_change_bound|].
  split; [apply sweep_change_attained|].
  split.
  { intros s Hs. rewrite copy_back_lookup.
    by rewrite sweep_values_in. }
  rewrite (vi_loop_unfold M HM gamma epsilon mr (Some mr) Homr) by done.
  split; intros Hcv.
  - apply Qle_bool_iff in Hcv. by rewrite Hcv.
  - destruct (Qle_bool _ epsilon) eqn:Hb; [|done].
    apply Qle_bool_iff in Hb. contradiction.
Qed.

(** Under exact arithmetic, with a forward probability in [0,1], a
    discount in [0,1) and a positive threshold, [value_iteration] returns
    once it is given enough sweeps, and the map it returns has an entry
    for every state of [get_states()] and for nothing else. *)
Lemma value_iteration_terminates_exact (gamma epsilon : Q) :
  0 <= prob_forw <= 1 -> 0 <= gamma < 1 -> 0 < epsilon ->
  exists n U,
    (forall fuel, (n <= fuel)%nat ->
                  value_iteration fuel M gamma epsilon = Ret U) /\
    (forall s, In s (get_states M) <-> is_Some (U !! s)).
Proof.
  intros Hpf Hgamma Heps.
  pose proof (MDP_init_constructed num_rows num_cols rewards terminals
                prob_forw reward_default) as HM.
  destruct (value_iteration_returns M gamma epsilon HM Hpf Hgamma Heps)
    as (n & R & HR & Hin & Hout).
  destruct (vi_init_min_total M) as [mr Homr].
  exists (S n), R. split.
  - intros fuel Hfuel. rewrite value_iteration_unfold in *.
    apply (vi_loop_more_fuel M HM gamma epsilon mr (vi_init M).2 Homr
             (S n)); [done|apply vi_init_covers|done].
  - intros s. split; [apply Hin|].
    intros Hs. destruct (in_dec (fun a b : state => decide (a = b)) s
                           (get_states M)) as [|Hnotin]; [done|].
    rewrite (Hout s Hnotin) in Hs. by destruct Hs.
Qed.

(** Under exact arithmetic, with a forward probability in [0,1] and a
    discount in [0,1): when [value_iteration] returns [U], one further
    sweep over [U] raises no error and changes the value of no state by
    more than [epsilon]. *)
Lemma resweep_within_epsilon_exact (fuel : nat) (gamma epsilon : Q)
    (U updated : utility_map) :
  0 <= prob_forw <= 1 -> 0 <= gamma < 1 -> 0 < epsilon ->
  value_iteration fuel M gamma epsilon = Ret U ->
  exists U' cv,
    sweep M gamma (vi_init M).2 U updated = Ret (U', cv) /\
    cv <= epsilon /\
    forall s, In s (get_states M) ->
      exists u u', U !! s = Some u /\ U' !! s = Some u' /\
                   Qabs (u - u') <= epsilon.
Proof.
  intros Hpf Hgamma _ Hret.
  pose proof (MDP_init_constructed num_rows num_cols rewards terminals
                prob_forw reward_default) as HM.
  destruct (vi_init_min_total M) as [mr Homr].
  rewrite value_iteration_unfold in Hret.
  apply (vi_loop_returns M HM gamma epsilon mr (vi_init M).2 Homr) in Hret;
    [|apply vi_init_covers].
  destruct Hret as (P & HP & Hc & Hin & _).
  assert (HU : covers U (get_states M))
    by (intros k Hk; rewrite (Hin k Hk); eauto).
  assert (Hchange : sweep_change M gamma mr U (get_states M) 0 <= epsilon).
  { apply (resweep_change M HM gamma epsilon mr Hpf (proj1 Hgamma) P U);
      [lra|done..]. }
  rewrite (sweep_ret M HM gamma mr U HU (vi_init M).2 updated Homr).
  do 2 eexists. split; [reflexivity|]. split; [done|].
  intros s Hs. destruct (HU s Hs) as [u Hu].
  exists u, (bellman M gamma mr U s). split; [done|].
  split; [by apply sweep_values_in|].
  eapply Qle_trans; [|exact Hchange].
  rewrite <- (util_at_Some _ _ _ Hu). by apply sweep_change_bound.
Qed.

(** C8.  When the utility map lacks an entry for a successor of some
    non-terminal state of the model, under some action of that state,
    [derive_policy] raises [KeyError] and returns no policy. *)
Theorem derive_policy_missing_key (U : utility_map) (s : state)
    (a : string) (k : state) :
  In s (get_states M) -> is_terminal M s = false ->
  In a (get_actions M s) ->
  In k (keys (get_successor_probs M s a)) -> U !! k = None ->
  exists k', derive_policy M U = KeyError k'.
Proof.
  intros Hs Hnt Ha Hk HUk. unfold derive_policy.
  apply (for_each_raises (policy_state_step M U) (get_states M) ∅ s).
  - intros acc y. apply policy_state_step_outcome.
  - done.
  - intros policy. by apply (policy_state_raises M U s a k).
Qed.

(** C9.  Every successor of a state of the grid is a state of the grid,
    hence of [get_states()]; and [value_iteration] never raises
    [KeyError], whatever the discount, the threshold and the number of
    sweeps it is given. *)
Theorem successors_are_states :
  (forall x y a k,
      (1 <= x <= num_cols)%Z -> (1 <= y <= num_rows)%Z ->
      In a four_actions ->
      In k (keys (get_successor_probs M (x, y) a)) ->
      in_grid M k /\ In k (get_states M)) /\
  (forall fuel gamma epsilon k,
      value_iteration fuel M gamma epsilon <> KeyError k).
Proof.
  pose proof (MDP_init_constructed num_rows num_cols rewards terminals
                prob_forw reward_default) as HM.
  split.
  - intros x y a k Hx Hy _ Hk.
    assert (in_grid M k)
      by (apply (successors_in_grid M (x, y) a); [by split|done]).
    split; [done|]. by apply (In_get_states M HM).
  - intros fuel gamma epsilon k. unfold value_iteration.
    destruct (vi_init M) as [U0 omr] eqn:Hinit.
    assert (HU0 : covers U0 (get_states M)).
    { pose proof (vi_init_covers M) as Hc. by rewrite Hinit in Hc. }
    assert (Homr : exists mr, get_states M <> [] -> omr = Some mr).
    { destruct omr as [mr|]; [by exists mr|]. exists 0. intros Hne.
      destruct (vi_init_min_reward M Hne) as (mr & Hmr & _).
      rewrite Hinit in Hmr. done. }
    destruct Homr as [mr Homr].
    generalize (∅ : utility_map). revert HU0. generalize U0.
    induction fuel as [|fuel IH]; intros U HU updated; [done|].
    rewrite (vi_loop_unfold M HM gamma epsilon mr omr Homr) by done.
    destruct (Qle_bool _ _); [done|].
    apply IH. by apply copy_back_covers.
Qed.

(** C10.  An action that is none of the four directions yields the empty
    mapping, without an error; the expected utility computed from it is
    0, in [value_iteration] and in [derive_policy] alike. *)
Theorem unknown_action_is_inert (s : state) (a : string) :
  is_terminal M s = false -> ~ In a four_actions ->
  get_successor_probs M s a = [] /\
  (forall U, utility_prob_sum (get_successor_probs M s a) U = Ret 0) /\
  (forall U, weighted_terms (get_successor_probs M s a) U = Ret [] /\
             exp_util_value M U s a = 0).
Proof.
  intros _ Ha.
  assert (Heq : get_successor_probs M s a = [])
    by by apply successors_unknown_action.
  unfold exp_util_value. rewrite Heq. done.
Qed.

End Claims.

(** ** The claims that depend on the arithmetic, over doubles *)

Section ClaimsOverDoubles.

Import PrimFloat SpecFloat FloatOps FloatAxioms.
Local Open Scope float_scope.

Variables num_rows num_cols : Z.
Variable rewards : gmap (Z * Z) float.
Variable terminals : list state.
Variables prob_forw reward_default : float.

Local Abbreviation MF :=
  (F64.MDP_init num_rows num_cols rewards terminals prob_forw
     reward_default).

(** The same grid and terminal states with rational rewards and
    probabilities, under exact arithmetic. *)
Local Abbreviation MQ rewards' prob_forw' reward_default' :=
  (MDP_init num_rows num_cols rewards' terminals prob_forw'
     reward_default').



(** C6.  [value_iteration] raises no [KeyError], and the map it returns,
    when it returns, has an entry for every state of [get_states()] and
    for nothing else.  With exact arithmetic, a forward probability in
    [0,1], a discount in [0,1) and a positive threshold, it returns once
    it is given enough sweeps. *)
Theorem value_iteration_complete_map :
  (forall (fuel : nat) (gamma epsilon : float),
      (forall k, F64.value_iteration fuel MF gamma epsilon <> KeyError k) /\
      (forall U : gmap (Z * Z) float,
          F64.value_iteration fuel MF gamma epsilon = Ret U ->
          forall s, In s (F64.get_states MF) <-> is_Some (U !! s))) /\
  (forall (rewards' : gmap (Z * Z) Q) (prob_forw' reward_default' : Q)
          (gamma epsilon : Q),
      (0 <= prob_forw' <= 1)%Q -> (0 <= gamma < 1)%Q -> (0 < epsilon)%Q ->
      exists n (U : utility_map),
        (forall fuel, (n <= fuel)%nat ->
                      value_iteration fuel
                        (MQ rewards' prob_forw' reward_default') gamma
                        epsilon = Ret U) /\
        (forall s, In s (get_states (MQ rewards' prob_forw' reward_default'))
                   <-> is_Some (U !! s))).
Proof.
  pose proof (MDP_init_constructed_f64 num_rows num_cols rewards terminals
                prob_forw reward_default) as HM.
  split.
  - intros fuel gamma epsilon.
    destruct (value_iteration_outcome_f64 fuel MF gamma epsilon HM)
      as [->|(P & HP & Hc & ->)]; [split; [done|]; intros U; done|].
    split; [done|]. intros U [= <-] s. split.
    + intros Hs. rewrite sweep_values_in_f64 by done. eauto.
    + intros Hs.
      destruct (in_dec (fun a b : state => decide (a = b)) s
                  (F64.get_states MF)) as [|Hnotin]; [done|].
      rewrite sweep_values_out_f64, lookup_empty in Hs by done.
      by destruct Hs.
  - intros rewards' prob_forw' reward_default' gamma epsilon.
    apply value_iteration_terminates_exact.
Qed.

(** C7.  When [value_iteration] returns [U], [U] is what the last sweep
    stored, that sweep changed the value of no state by more than
    [epsilon], and one further sweep over [U] raises no error.  With
    exact arithmetic, a forward probability in [0,1] and a discount in
    [0,1), the further sweep changes the value of no state by more than
    [epsilon] either. *)
Theorem resweep_bound :
  (forall (fuel : nat) (gamma epsilon : float) (U : gmap (Z * Z) float),
      F64.value_iteration fuel MF gamma epsilon = Ret U ->
      (exists P,
          F64.covers P (F64.get_states MF) /\
          (forall s, In s (F64.get_states MF) ->
                     U !! s
                     = Some (F64.bellman MF gamma (F64.vi_init MF).2 P s)) /\
          (F64.sweep_change MF gamma (F64.vi_init MF).2 P
             (F64.get_states MF) 0 <=? epsilon) = true) /\
      (forall updated, exists U' cv,
          F64.sweep MF gamma (F64.vi_init MF).2 U updated = Ret (U', cv))) /\
  (forall (rewards' : gmap (Z * Z) Q) (prob_forw' reward_default' : Q)
          (fuel : nat) (gamma epsilon : Q) (U updated : utility_map),
      (0 <= prob_forw' <= 1)%Q -> (0 <= gamma < 1)%Q -> (0 < epsilon)%Q ->
      value_iteration fuel (MQ rewards' prob_forw' reward_default') gamma
        epsilon = Ret U ->
      exists U' cv,
        sweep (MQ rewards' prob_forw' reward_default') gamma
          (vi_init (MQ rewards' prob_forw' reward_default')).2 U updated
        = Ret (U', cv) /\
        (cv <= epsilon)%Q /\
        forall s, In s (get_states (MQ rewards' prob_forw' reward_default'))
                  ->
          exists u u', U !! s = Some u /\ U' !! s = Some u' /\
                       (Qabs (u - u') <= epsilon)%Q).
Proof.
  pose proof (MDP_init_constructed_f64 num_rows num_cols rewards terminals
                prob_forw reward_default) as HM.
  split.
  - intros fuel gamma epsilon U Hret.
    destruct (value_iteration_outcome_f64 fuel MF gamma epsilon HM)
      as [Ht|(P & HP & Hc & Heq)]; [congruence|].
    rewrite Heq in Hret. injection Hret as <-.
    split.
    + exists P. split; [done|]. split; [|done].
      intros s Hs. by apply sweep_values_in_f64.
    + intros updated. do 2 eexists. apply (sweep_ret_f64 MF HM).
      intros s Hs. rewrite sweep_values_in_f64 by done. eauto.
  - intros rewards' prob_forw' reward_default' fuel gamma epsilon U updated.
    apply resweep_within_epsilon_exact.
Qed.

End ClaimsOverDoubles.

(** ** The theorems at the scenarios of the tests *)

(** On the grid with positive rewards, [value_iteration] with the discount
    and the threshold of the tests returns, and the utility of the terminal
    state is 20.8, not its reward 20. *)
Lemma terminal_utility_positive_grid :
  is_terminal gridworld_positive (3, 2)%Z = true /\
  get_reward gridworld_positive (3, 2)%Z = 20 /\
  exists n U u,
    value_iteration n gridworld_positive (8 # 10) (1 # 100) = Ret U /\
    U !! (3, 2)%Z = Some u /\ u == 208 # 10 /\ ~ u == 20.
Proof.
  split; [done|]. split; [done|].
  destruct (value_iteration_returns gridworld_positive (8 # 10) (1 # 100))
    as (n & U & Hret & _);
    [apply MDP_init_constructed|split; by vm_compute..|by vm_compute|].
  destruct (terminal_utility_value 2 3 {[ (3, 2)%Z := 20 ]} [(3, 2)%Z]
              (8 # 10) 1 (S n) (8 # 10) (1 # 100) U (3, 2)%Z Hret)
    as (mr & u & Hmr & Hu & Heq); [simpl; auto 7|done|].
  vm_compute in Hmr. injection Hmr as <-.
  exists (S n), U, u. split; [done|]. split; [done|].
  assert (Hu208 : u == 208 # 10).
  { rewrite Heq, Q.max_l by lra.
    change (get_reward _ (3, 2)%Z) with 20. reflexivity. }
  split; [done|]. rewrite Hu208. by vm_compute.
Qed.

(** Membership in an explicit list of states, case by case. *)
Ltac each_state H :=
  cbn in H; repeat (destruct H as [<-|H]; [|]); [..|destruct H].

(** The bound of C7 rests on the forward probability lying in [0,1]: on
    [skewed_pair] the loop returns after two sweeps, with threshold 1/2,
    and a third sweep changes a value by 7/8. *)
Lemma resweep_needs_probability :
  exists U U' cv,
    value_iteration 2 skewed_pair (1 # 2) (1 # 2) = Ret U /\
    sweep skewed_pair (1 # 2) (vi_init skewed_pair).2 U ∅ = Ret (U', cv) /\
    cv == 7 # 8 /\ ~ cv <= 1 # 2.
Proof.
  destruct (value_iteration 2 skewed_pair (1 # 2) (1 # 2)) as [U| | |] eqn:HU;
    try (vm_compute in HU; discriminate).
  destruct (sweep skewed_pair (1 # 2) (vi_init skewed_pair).2 U ∅)
    as [[U' cv]| | |] eqn:HU';
    try (vm_compute in HU; injection HU as <-; vm_compute in HU';
         discriminate).
  exists U, U', cv. split; [done|]. split; [done|].
  vm_compute in HU. injection HU as <-.
  vm_compute in HU'. injection HU' as <- <-.
  split; by vm_compute.
Qed.

Lemma unknown_action_is_inert_witness :
  get_successor_probs gridworld1 (1, 1)%Z "stay" = [] /\
  (forall U, utility_prob_sum (get_successor_probs gridworld1 (1, 1)%Z "stay")
               U = Ret 0) /\
  (forall U, weighted_terms (get_successor_probs gridworld1 (1, 1)%Z "stay") U
             = Ret [] /\
             exp_util_value gridworld1 U (1, 1)%Z "stay" = 0).
Proof.
  apply (unknown_action_is_inert 2 3 (test_rewards (-10)) [(3, 2)%Z]
           (8 # 10) 0 (1, 1)%Z "stay"); [reflexivity|].
  unfold four_actions. simpl. intuition discriminate.
Defined.

Lemma derive_policy_missing_key_witness :
  In (1, 2)%Z (keys (get_successor_probs gridworld1 (1, 1)%Z "up")) /\
  exists k', derive_policy gridworld1 ∅ = KeyError k'.
Proof.
  split; [simpl; auto|].
  apply (derive_policy_missing_key 2 3 (test_rewards (-10)) [(3, 2)%Z]
           (8 # 10) 0 ∅ (1, 1)%Z "up" (1, 2)%Z);
    [simpl; auto|reflexivity|simpl; auto|simpl; auto|reflexivity].
Defined.

Lemma value_iteration_update_rule_witness :
  get_states pair_world <> [] /\
  (exists U : utility_map,
      value_iteration 1 pair_world (1 # 2) (1 # 4) = Timeout /\
      value_iteration 2 pair_world (1 # 2) (1 # 4) = Ret U /\
      forall s, In s (get_states pair_world) ->
        exists u, U !! s = Some u /\
          u == util_at (Spec.sweeps pair_world (1 # 2) (-2) 2
                          (Spec.rewards_map pair_world)) s) /\
  exists mr,
    (vi_init pair_world).2 = Some mr /\ Spec.least_reward pair_world mr /\
    (forall s, In s (get_states pair_world) ->
               (vi_init pair_world).1 !! s = Some (get_reward pair_world s)) /\
    (forall fuel gamma epsilon,
        value_iteration fuel pair_world gamma epsilon
        = vi_loop fuel pair_world gamma epsilon (Some mr)
            (vi_init pair_world).1 ∅) /\
    (forall gamma (U updated : utility_map),
        covers U (get_states pair_world) ->
        exists updated' cv,
          sweep pair_world gamma (Some mr) U updated = Ret (updated', cv) /\
          forall s, In s (get_states pair_world) ->
            exists v, updated' !! s = Some v /\
              v == get_reward pair_world s
                   + gamma * Spec.max_val pair_world mr U s) /\
    (forall (fuel : nat) (gamma epsilon : Q) (U : utility_map),
        value_iteration fuel pair_world gamma epsilon = Ret U ->
        exists n, (n < fuel)%nat /\
          forall s, In s (get_states pair_world) ->
            exists u, U !! s = Some u /\
              u == util_at (Spec.sweeps pair_world gamma mr (S n)
                              (Spec.rewards_map pair_world)) s).
Proof.
  assert (Hne : get_states pair_world <> []) by discriminate.
  split; [exact Hne|].
  pose proof (value_iteration_update_rule 1 2
                (<[(1, 1)%Z := 1]> {[ (2, 1)%Z := -2 ]}) [] (1 # 2) 0 Hne)
    as Hrule.
  split; [|exact Hrule].
  destruct (value_iteration 2 pair_world (1 # 2) (1 # 4))
    as [U| | |] eqn:Hret; [|exfalso; vm_compute in Hret; discriminate..].
  exists U. split; [by vm_compute|]. split; [reflexivity|].
  intros s Hs. vm_compute in Hret. injection Hret as <-.
  each_state Hs; eexists; (split; [reflexivity|]); by vm_compute.
Defined.

Lemma sweeps_are_synchronous_witness :
  covers (vi_init pair_world).1 (get_states pair_world) /\
  exists updated' cv,
    sweep pair_world (1 # 2) (Some (-2)) (vi_init pair_world).1 ∅
    = Ret (updated', cv) /\
    (exists u1 u2,
        updated' !! (1, 1)%Z = Some u1 /\ u1 == 3 # 2 /\
        updated' !! (2, 1)%Z = Some u2 /\ u2 == -9 # 4 /\
        ~ u2 == get_reward pair_world (2, 1)%Z
               + (1 # 2) * Spec.max_val pair_world (-2)
                             (<[(1, 1)%Z := u1]> (vi_init pair_world).1)
                             (2, 1)%Z) /\
    cv == 1 # 2 /\ ~ cv <= 1 # 100 /\
    (forall s, In s (get_states pair_world) ->
               updated' !! s
               = Some (bellman pair_world (1 # 2) (-2)
                         (vi_init pair_world).1 s)) /\
    (forall s, ~ In s (get_states pair_world) ->
               updated' !! s = (∅ : utility_map) !! s) /\
    (forall s, In s (get_states pair_world) ->
               Qabs (util_at (vi_init pair_world).1 s
                     - bellman pair_world (1 # 2) (-2)
                         (vi_init pair_world).1 s)
               <= cv) /\
    (cv = 0 \/
     exists s, In s (get_states pair_world) /\
               cv = Qabs (util_at (vi_init pair_world).1 s
                          - bellman pair_world (1 # 2) (-2)
                              (vi_init pair_world).1 s)) /\
    (forall s, In s (get_states pair_world) ->
               copy_back updated' (vi_init pair_world).1 !! s
               = updated' !! s) /\
    (cv <= 1 # 100 ->
     vi_loop 3 pair_world (1 # 2) (1 # 100) (Some (-2))
       (vi_init pair_world).1 ∅
     = Ret updated') /\
    (~ cv <= 1 # 100 ->
     vi_loop 3 pair_world (1 # 2) (1 # 100) (Some (-2))
       (vi_init pair_world).1 ∅
     = vi_loop 2 pair_world (1 # 2) (1 # 100) (Some (-2))
         (copy_back updated' (vi_init pair_world).1) updated').
Proof.
  assert (HU : covers (vi_init pair_world).1 (get_states pair_world)).
  { intros k Hk. each_state Hk; vm_compute; eauto. }
  split; [exact HU|].
  destruct (sweeps_are_synchronous 1 2
              (<[(1, 1)%Z := 1]> {[ (2, 1)%Z := -2 ]}) [] (1 # 2) 0
              2 (1 # 2) (1 # 100) (-2) (vi_init pair_world).1 ∅ HU)
    as (updated' & cv & Hsweep & Hrest).
  exists updated', cv. split; [exact Hsweep|].
  split; [|split; [|split; [|exact Hrest]]];
    vm_compute in Hsweep; injection Hsweep as <- <-.
  - do 2 eexists. split; [reflexivity|]. split; [by vm_compute|].
    split; [reflexivity|]. split; by vm_compute.
  - by vm_compute.
  - by vm_compute.
Defined.

Lemma successors_are_states_witness :
  In (3, 1)%Z (keys (get_successor_probs gridworld1 (3, 1)%Z "down")) /\
  in_grid gridworld1 (3, 1)%Z /\ In (3, 1)%Z (get_states gridworld1).
Proof.
  split; [simpl; auto|].
  apply (proj1 (successors_are_states 2 3 (test_rewards (-10)) [(3, 2)%Z]
                  (8 # 10) 0) 3%Z 1%Z "down" (3, 1)%Z);
    [lia|lia|simpl; auto|simpl; auto].
Defined.

(** ** The claims over doubles at concrete scenarios *)

Section ScenariosOverDoubles.

Import PrimFloat SpecFloat FloatOps FloatAxioms.
Local Open Scope float_scope.

(** The discount 0.8 and the threshold 0.01 of the tests, as doubles. *)
Local Abbreviation discount_08 := 0x1.999999999999ap-1.
Local Abbreviation epsilon_001 := 0x1.47ae147ae147bp-7.

(** The run of [test1]: ten sweeps, and the utilities it prints. *)
Lemma value_iteration_test1 :
  F64.value_iteration 9 F64.gridworld1 discount_08 epsilon_001 = Timeout /\
  F64.value_iteration 10 F64.gridworld1 discount_08 epsilon_001
  = Ret F64.test1_utilities.
Proof. split; by vm_compute. Qed.





(** On [seesaw], with the discount and the threshold of the tests, the
    snapshot after 160 sweeps is the snapshot after 158 sweeps, each of
    which changed a value by more than the threshold: the loop never
    ends. *)
Lemma value_iteration_never_returns_on_seesaw :
  F64.prob_forw F64.seesaw = 1 /\
  (forall s, is_Some (F64.exact (F64.get_reward F64.seesaw s))) /\
  (0 <=? discount_08) = true /\ (discount_08 <? 1) = true /\
  (0 <? epsilon_001) = true /\
  forall fuel,
    F64.value_iteration fuel F64.seesaw discount_08 epsilon_001 = Timeout.
Proof.
  split; [done|]. split.
  { intros s. unfold F64.get_reward, F64.seesaw.
    cbn [F64.MDP_init F64.rewards F64.reward_def].
    destruct (decide (s = (2, 2)%Z)) as [->|H22]; [vm_compute; eauto|].
    rewrite lookup_insert_ne by done.
    destruct (decide (s = (2, 1)%Z)) as [->|H21]; [vm_compute; eauto|].
    rewrite lookup_singleton_ne by done. vm_compute; eauto. }
  split; [by vm_compute|]. split; [by vm_compute|]. split; [by vm_compute|].
  apply (value_iteration_cycle_f64 158 1 F64.seesaw discount_08 epsilon_001).
  by vm_compute.
Qed.

Lemma value_iteration_complete_map_witness :
  (F64.value_iteration 10 F64.gridworld1 discount_08 epsilon_001
   = Ret F64.test1_utilities /\
   forall s, In s (F64.get_states F64.gridworld1) <->
             is_Some (F64.test1_utilities !! s)) /\
  (exists n (U : utility_map),
      (forall fuel, (n <= fuel)%nat ->
                    value_iteration fuel gridworld1 (8 # 10) (1 # 100)
                    = Ret U) /\
      (forall s, In s (get_states gridworld1) <-> is_Some (U !! s))).
Proof.
  pose proof (value_iteration_complete_map 2 3 (F64.test_rewards (-10))
                [(3, 2)%Z] discount_08 0) as [Hdoubles Hexact].
  split.
  - assert (Hret : F64.value_iteration 10 F64.gridworld1 discount_08
                     epsilon_001 = Ret F64.test1_utilities)
      by by vm_compute.
    split; [exact Hret|].
    exact (proj2 (Hdoubles 10%nat discount_08 epsilon_001)
             F64.test1_utilities Hret).
  - apply (Hexact (test_rewards (-10)) (8 # 10)%Q 0%Q (8 # 10)%Q
             (1 # 100)%Q); [split|split|]; by vm_compute.
Defined.

(** On [slow_pair], with discount 0.3 and threshold 3.5e-15, the loop
    returns after 28 sweeps and a further sweep changes the utility of
    (1,1) by 2^-46, about 1.4e-14; on [skewed_pair], whose forward
    probability is 3, it returns after two sweeps with threshold 0.5 and
    the further sweep changes a utility by 0.875, which exact arithmetic
    gives as well. *)
Lemma resweep_exceeds_epsilon :
  ((0 <=? F64.prob_forw F64.slow_pair) = true /\
   (F64.prob_forw F64.slow_pair <=? 1) = true /\
   F64.value_iteration 28 F64.slow_pair 0x1.3333333333333p-2
     0x1.f86735614d6a6p-49
   = Ret (<[(1, 1)%Z := -0x1.ed19519519519p+6]>
            {[ (2, 1)%Z := -0x1.6db6db6db6db2p+0 ]}) /\
   F64.sweep F64.slow_pair 0x1.3333333333333p-2
     (F64.vi_init F64.slow_pair).2
     (<[(1, 1)%Z := -0x1.ed19519519519p+6]>
        {[ (2, 1)%Z := -0x1.6db6db6db6db2p+0 ]}) ∅
   = Ret (<[(1, 1)%Z := -0x1.ed1951951951ap+6]>
            {[ (2, 1)%Z := -0x1.6db6db6db6db5p+0 ]}, 0x1p-46) /\
   (0x1p-46 <=? 0x1.f86735614d6a6p-49) = false /\
   0x1p-46 = abs (-0x1.ed19519519519p+6 - -0x1.ed1951951951ap+6)) /\
  (F64.prob_forw F64.skewed_pair = 3 /\
   F64.value_iteration 2 F64.skewed_pair 0.5 0.5
   = Ret (<[(1, 1)%Z := 1]> {[ (2, 1)%Z := 3.25 ]}) /\
   F64.sweep F64.skewed_pair 0.5 (F64.vi_init F64.skewed_pair).2
     (<[(1, 1)%Z := 1]> {[ (2, 1)%Z := 3.25 ]}) ∅
   = Ret (<[(1, 1)%Z := 1.875]> {[ (2, 1)%Z := 3.75 ]}, 0.875) /\
   (0.875 <=? 0.5) = false /\
   exists (U U' : utility_map) (cv : Q),
     value_iteration 2 skewed_pair (1 # 2) (1 # 2) = Ret U /\
     sweep skewed_pair (1 # 2) (vi_init skewed_pair).2 U ∅ = Ret (U', cv) /\
     (cv == 7 # 8)%Q).
Proof.
  split.
  - do 5 (split; [by vm_compute|]). by vm_compute.
  - do 4 (split; [by vm_compute|]).
    destruct resweep_needs_probability as (U & U' & cv & HU & HU' & Hcv & _).
    exists U, U', cv. split; [exact HU|]. split; [exact HU'|exact Hcv].
Qed.

Lemma resweep_bound_witness :
  (F64.value_iteration 10 F64.gridworld1 discount_08 epsilon_001
   = Ret F64.test1_utilities /\
   (exists P : gmap (Z * Z) float,
       F64.covers P (F64.get_states F64.gridworld1) /\
       (forall s, In s (F64.get_states F64.gridworld1) ->
                  F64.test1_utilities !! s
                  = Some (F64.bellman F64.gridworld1 discount_08
                            (F64.vi_init F64.gridworld1).2 P s)) /\
       (F64.sweep_change F64.gridworld1 discount_08
          (F64.vi_init F64.gridworld1).2 P (F64.get_states F64.gridworld1) 0
        <=? epsilon_001) = true) /\
   (forall updated, exists U' cv,
       F64.sweep F64.gridworld1 discount_08 (F64.vi_init F64.gridworld1).2
         F64.test1_utilities updated = Ret (U', cv))) /\
  (exists U U' : utility_map, exists cv : Q,
      value_iteration 2 pair_world (1 # 2) (1 # 4) = Ret U /\
      value_iteration 1 pair_world (1 # 2) (1 # 4) = Timeout /\
      sweep pair_world (1 # 2) (vi_init pair_world).2 U ∅ = Ret (U', cv) /\
      (cv <= 1 # 4)%Q /\
      forall s, In s (get_states pair_world) ->
        exists u u', U !! s = Some u /\ U' !! s = Some u' /\
                     (Qabs (u - u') <= 1 # 4)%Q).
Proof.
  pose proof (resweep_bound 2 3 (F64.test_rewards (-10)) [(3, 2)%Z]
                discount_08 0) as [Hdoubles _].
  pose proof (resweep_bound 1 2 ∅ [] 0 0) as [_ Hexact].
  split.
  - assert (Hret : F64.value_iteration 10 F64.gridworld1 discount_08
                     epsilon_001 = Ret F64.test1_utilities)
      by by vm_compute.
    split; [exact Hret|].
    exact (Hdoubles 10%nat discount_08 epsilon_001 F64.test1_utilities Hret).
  - destruct (value_iteration 2 pair_world (1 # 2) (1 # 4))
      as [U| | |] eqn:Hret; [|exfalso; vm_compute in Hret; discriminate..].
    destruct (Hexact (<[(1, 1)%Z := 1%Q]> {[ (2, 1)%Z := (-2)%Q ]})
                (1 # 2)%Q 0%Q 2%nat (1 # 2)%Q (1 # 4)%Q U ∅)
      as (U' & cv & Hsweep & Hcv & Hall);
      [split; by vm_compute|split; by vm_compute|by vm_compute|exact Hret|].
    exists U, U', cv. split; [reflexivity|]. split; [by vm_compute|].
    split; [exact Hsweep|]. split; [exact Hcv|exact Hall].
Defined.

End ScenariosOverDoubles.

(** ** Further properties of the model and of the solver *)

Lemma NoDup_py_range n : List.NoDup (py_range n).
Proof.
  unfold py_range. apply NoDup_map_NoDup_ForallPairs; [|apply seq_NoDup].
  intros i j _ _ Hij. lia.
Qed.

Lemma py_range_nil n : (n <= 0)%Z -> py_range n = [].
Proof.
  intros Hn. unfold py_range. by replace (Z.to_nat n) with 0%nat by lia.
Qed.

Lemma length_py_range n : length (py_range n) = Z.to_nat n.
Proof. unfold py_range. by rewrite length_map, length_seq. Qed.

Lemma NoDup_grid_states nr nc : List.NoDup (grid_states nr nc).
Proof.
  unfold grid_states.
  pose proof (NoDup_py_range nc) as Hnd.
  induction (py_range nc) as [|i l IH]; [constructor|].
  apply List.NoDup_cons_iff in Hnd as [Hi Hnd]. cbn [flat_map].
  apply List.NoDup_app.
  - apply NoDup_map_NoDup_ForallPairs; [|apply NoDup_py_range].
    intros j j' _ _ [= ?]. lia.
  - by apply IH.
  - intros [x y] Hin Hin'.
    apply in_map_iff in Hin as (j & [= <- <-] & _).
    apply in_flat_map in Hin' as (i' & Hi' & Hin').
    apply in_map_iff in Hin' as (j' & [= Hii _] & _).
    apply Hi. by replace i with i' by lia.
Qed.

Lemma length_grid_states nr nc :
  length (grid_states nr nc) = (Z.to_nat nc * Z.to_nat nr)%nat.
Proof.
  unfold grid_states. rewrite <- (length_py_range nc).
  induction (py_range nc) as [|i l IH]; [done|].
  cbn [flat_map length]. rewrite length_app, IH, length_map, length_py_range.
  lia.
Qed.

Lemma grid_states_nil nr nc :
  (nr <= 0)%Z \/ (nc <= 0)%Z -> grid_states nr nc = [].
Proof.
  intros [Hr|Hc]; unfold grid_states.
  - rewrite (py_range_nil nr Hr).
    induction (py_range nc) as [|i l IH]; [done|]. by cbn [flat_map map].
  - by rewrite (py_range_nil nc Hc).
Qed.


(** The first missing key, in insertion order, is the one reported. *)
Lemma utility_prob_sum_loop_first_missing d1 k p d2 U acc :
  covers U (keys d1) -> U !! k = None ->
  for_each
    (fun sum_val '(suc, prob) =>
       u ← subscript U suc; Ret (sum_val + prob * u))
    (d1 ++ (k, p) :: d2) acc
  = KeyError k.
Proof.
  intros Hc Hk. rewrite for_each_app.
  rewrite utility_prob_sum_loop_covered by done.
  cbn [mbind outcome_bind for_each]. by rewrite (subscript_None _ _ Hk).
Qed.

Lemma first_missing_key (d : succ_dict) (U : utility_map) :
  covers U (keys d) \/
  exists d1 k p d2,
    d = d1 ++ (k, p) :: d2 /\ covers U (keys d1) /\ U !! k = None.
Proof.
  induction d as [|[k p] d IH].
  - left. intros k [].
  - destruct (U !! k) as [u|] eqn:Hu.
    + destruct IH as [Hc|(d1 & k' & p' & d2 & -> & Hc & Hk')].
      * left. intros k' [<-|Hk']; [eauto|by apply Hc].
      * right. exists ((k, p) :: d1), k', p', d2. split; [done|].
        split; [|done]. intros k'' [<-|Hk'']; [eauto|by apply Hc].
    + right. exists [], k, p, d. split; [done|]. split; [intros ? []|done].
Qed.

Section Further.

Variables num_rows num_cols : Z.
Variable rewards : gmap (Z * Z) Q.
Variable terminals : list state.
Variables prob_forw reward_default : Q.

Local Abbreviation M :=
  (MDP_init num_rows num_cols rewards terminals prob_forw reward_default).

(** X1.  [get_states()] lists every cell of the grid, columns 1 to
    [num_cols] and rows 1 to [num_rows], once each and nothing else; it
    is empty as soon as a dimension is not positive. *)
Theorem get_states_is_the_grid :
  List.NoDup (get_states M) /\
  (forall x y, In (x, y) (get_states M) <->
               (1 <= x <= num_cols)%Z /\ (1 <= y <= num_rows)%Z) /\
  length (get_states M) = (Z.to_nat num_cols * Z.to_nat num_rows)%nat /\
  ((num_rows <= 0)%Z \/ (num_cols <= 0)%Z <-> get_states M = []).
Proof.
  split; [apply NoDup_grid_states|].
  split; [intros x y; apply In_grid_states|].
  split; [apply length_grid_states|].
  split; [apply grid_states_nil|].
  intros Hnil.
  destruct (Z_le_gt_dec num_rows 0) as [|Hr]; [by left|].
  destruct (Z_le_gt_dec num_cols 0) as [|Hc]; [by right|].
  assert (Hin : In (1, 1)%Z (get_states M)) by (apply In_grid_states; lia).
  rewrite Hnil in Hin. destruct Hin.
Qed.

(** X2.  With a negative threshold the loop of [value_iteration] never
    stops: whatever the number of sweeps allowed, no map is returned. *)
Theorem negative_epsilon_never_returns (fuel : nat) (gamma epsilon : Q) :
  epsilon < 0 -> value_iteration fuel M gamma epsilon = Timeout.
Proof.
  intros Heps.
  pose proof (MDP_init_constructed num_rows num_cols rewards terminals
                prob_forw reward_default) as HM.
  destruct (vi_init_min_total M) as [mr Homr].
  rewrite value_iteration_unfold.
  pose proof (vi_init_covers M) as HU. revert HU.
  generalize (∅ : utility_map). generalize (vi_init M).1.
  induction fuel as [|fuel IH]; intros U updated HU; [done|].
  rewrite (vi_loop_unfold M HM gamma epsilon mr (vi_init M).2 Homr) by done.
  destruct (Qle_bool _ epsilon) eqn:Hle.
  - apply Qle_bool_iff in Hle.
    pose proof (sweep_change_ge M gamma mr U (get_states M) 0). lra.
  - apply IH. by apply copy_back_covers.
Qed.

(** X3.  On a grid without cells, [value_iteration] returns the empty map
    after one pass of its loop, for any discount and any threshold that
    is not negative, and [derive_policy] returns the empty policy. *)
Theorem empty_grid_gives_empty_maps :
  (num_rows <= 0)%Z \/ (num_cols <= 0)%Z ->
  (forall fuel gamma epsilon,
      0 <= epsilon -> value_iteration (S fuel) M gamma epsilon = Ret ∅) /\
  (forall U, derive_policy M U = Ret ∅).
Proof.
  intros Hdim. pose proof (grid_states_nil num_rows num_cols Hdim) as Hnil.
  split.
  - intros fuel gamma epsilon Heps.
    unfold value_iteration, vi_init, sweep. cbn [vi_loop].
    unfold sweep, get_states. cbn [states MDP_init]. rewrite Hnil.
    cbn [fold_left for_each mbind outcome_bind].
    apply Qle_bool_iff in Heps. by rewrite Heps.
  - intros U. unfold derive_policy, get_states. cbn [states MDP_init].
    by rewrite Hnil.
Qed.



(** X6.  The utility that [value_iteration] returns for a terminal state
    of the grid is its reward plus the discount times the greater of
    [min_reward] and 0; it is the reward itself when [min_reward] is not
    positive. *)
Theorem terminal_utility_formula (fuel : nat) (gamma epsilon : Q)
    (U : utility_map) (s : state) :
  value_iteration fuel M gamma epsilon = Ret U ->
  In s (get_states M) -> is_terminal M s = true ->
  exists mr u,
    (vi_init M).2 = Some mr /\ U !! s = Some u /\
    u == get_reward M s + gamma * Qmax mr 0 /\
    (mr <= 0 -> u == get_reward M s).
Proof.
  intros Hret Hs Hterm.
  destruct (terminal_utility_value num_rows num_cols rewards terminals
              prob_forw reward_default fuel gamma epsilon U s Hret Hs Hterm)
    as (mr & u & Hmr & Hu & Heq).
  exists mr, u. split; [done|]. split; [done|]. split; [done|].
  intros Hle. rewrite Heq, Q.max_r by lra. ring.
Qed.

End Further.

Lemma for_each_ext {A B : Type} (f g : B -> A -> outcome B) l acc :
  (forall acc x, In x l -> f acc x = g acc x) ->
  for_each f l acc = for_each g l acc.
Proof.
  revert acc. induction l as [|x l IH]; intros acc Hfg; [done|].
  cbn [for_each]. rewrite Hfg by (simpl; auto).
  destruct (g acc x); cbn [mbind outcome_bind]; try done.
  apply IH. intros; apply Hfg; simpl; auto.
Qed.

Lemma fold_left_ext_in {A B : Type} (f g : B -> A -> B) l acc :
  (forall acc x, In x l -> f acc x = g acc x) ->
  fold_left f l acc = fold_left g l acc.
Proof.
  revert acc. induction l as [|x l IH]; intros acc Hfg; [done|].
  cbn [fold_left]. rewrite Hfg by (simpl; auto).
  apply IH. intros; apply Hfg; simpl; auto.
Qed.

(** X7.  [utility_prob_sum] either finds every key of the successor
    mapping in the utility map and returns the probability-weighted sum,
    or raises [KeyError] for the first key, in the order of the mapping,
    that the utility map lacks (whatever its probability). *)
Theorem utility_prob_sum_behaviour (d : succ_dict) (U : utility_map) :
  (covers U (keys d) /\
   exists q, utility_prob_sum d U = Ret q /\ q == expectation d U) \/
  (exists d1 k p d2,
     d = d1 ++ (k, p) :: d2 /\ covers U (keys d1) /\ U !! k = None /\
     utility_prob_sum d U = KeyError k).
Proof.
  destruct (first_missing_key d U) as [Hc|(d1 & k & p & d2 & -> & Hc & Hk)].
  - left. split; [done|]. exists (ups_value d U 0).
    split; [by apply utility_prob_sum_covered|].
    rewrite expectation_ups_value. lra.
  - right. exists d1, k, p, d2. split; [done|]. split; [done|].
    split; [done|]. by apply utility_prob_sum_loop_first_missing.
Qed.

Section Policies.

Variables num_rows num_cols : Z.
Variable rewards : gmap (Z * Z) Q.
Variable terminals : list state.
Variables prob_forw reward_default : Q.

Local Abbreviation M :=
  (MDP_init num_rows num_cols rewards terminals prob_forw reward_default).

Lemma derive_policy_loop_covered (U : utility_map) l policy :
  successors_covered M U -> incl l (get_states M) ->
  for_each (policy_state_step M U) l policy
  = Ret (fold_left (fun p s => <[s := policy_choice M U s]> p) l policy).
Proof.
  intros HU. revert policy. induction l as [|s l IH]; intros policy Hl;
    [done|].
  cbn [for_each fold_left].
  assert (Hs : In s (get_states M)) by (apply Hl; simpl; auto).
  assert (Hstep : policy_state_step M U policy s
                  = Ret (<[s := policy_choice M U s]> policy)).
  { unfold policy_state_step, policy_choice.
    destruct (is_terminal M s) eqn:Hterm; [done|].
    rewrite policy_actions_ret by (intros a Ha; by apply HU).
    cbn [mbind outcome_bind]. by destruct (fold_left _ _ _). }
  rewrite Hstep. cbn [mbind outcome_bind].
  apply IH. intros k Hk. apply Hl; simpl; auto.
Qed.

(** X8.  [derive_policy] returns a policy exactly when the utility map
    has an entry for every successor of every non-terminal state (entries
    for terminal states that nothing leads to are not needed); the policy
    it returns has an entry for every state of [get_states()] and for
    nothing else. *)
Theorem derive_policy_returns_iff (U : utility_map) :
  (successors_covered M U <-> exists policy, derive_policy M U = Ret policy)
  /\
  (forall policy,
      derive_policy M U = Ret policy ->
      forall s, In s (get_states M) <-> is_Some (policy !! s)).
Proof.
  assert (Hback : forall policy,
             derive_policy M U = Ret policy -> successors_covered M U).
  { intros policy Hret s a Hs Hterm Ha k Hk.
    destruct (U !! k) as [u|] eqn:Hu; [eauto|]. exfalso.
    destruct (for_each_raises (policy_state_step M U) (get_states M) ∅ s
                (policy_state_step_outcome M U) Hs) as [k' Hraise].
    - intros policy'. by apply (policy_state_raises M U s a k).
    - unfold derive_policy in Hret. congruence. }
  split.
  - split; [|intros [policy Hret]; by apply (Hback policy)].
    intros HU. eexists. unfold derive_policy.
    apply (derive_policy_loop_covered U); [done|apply incl_refl].
  - intros policy Hret s.
    pose proof (Hback policy Hret) as HU.
    unfold derive_policy in Hret.
    rewrite (derive_policy_loop_covered U (get_states M) ∅ HU
               (incl_refl _)) in Hret.
    injection Hret as <-. split.
    + intros Hs. rewrite (fold_insert_in (policy_choice M U)) by done. eauto.
    + intros Hsome.
      destruct (in_dec (fun a b : state => decide (a = b)) s (get_states M))
        as [|Hnotin]; [done|].
      rewrite (fold_insert_out (policy_choice M U)), lookup_empty in Hsome
        by done.
      by destruct Hsome.
Qed.

(** X10.  With a forward probability in [0,1], every probability of a
    successor mapping of a state of the grid lies in [0,1], and every
    successor is the state itself or one of its four neighbours. *)
Theorem successor_probs_bounded (x y : Z) (a : string) (k : state) (p : Q) :
  (1 <= x <= num_cols)%Z -> (1 <= y <= num_rows)%Z ->
  0 <= prob_forw <= 1 ->
  In (k, p) (get_successor_probs M (x, y) a) ->
  0 <= p <= 1 /\ (Z.abs (k.1 - x) + Z.abs (k.2 - y) <= 1)%Z.
Proof.
  intros Hx Hy Hpf Hin.
  pose proof (MDP_init_constructed num_rows num_cols rewards terminals
                prob_forw reward_default) as HM.
  pose proof (successors_nonneg M HM (x, y) a Hpf) as Hnn.
  split.
  - split; [by apply (Hnn k)|].
    assert (Hle : forall d : succ_dict,
               nonneg d -> In (k, p) d -> p <= total_prob d).
    { clear. induction d as [|[k' p'] d IH]; intros Hd Hin; [destruct Hin|].
      cbn [total_prob].
      assert (0 <= p') by (apply (Hd k'); simpl; auto).
      assert (Hd' : nonneg d) by (intros ? ? ?; eapply Hd; simpl; eauto).
      assert (Htot : 0 <= total_prob d).
      { clear -Hd'. induction d as [|[k'' p''] d IH]; cbn [total_prob];
          [lra|].
        assert (0 <= p'') by (apply (Hd' k''); simpl; auto).
        assert (0 <= total_prob d)
          by (apply IH; intros ? ? ?; eapply Hd'; simpl; eauto).
        lra. }
      destruct Hin as [[= -> ->]|Hin]; [lra|].
      specialize (IH Hd' Hin). lra. }
    specialize (Hle _ Hnn Hin).
    destruct (successors_total_cases M HM (x, y) a) as [Ht|Ht];
      rewrite Ht in Hle; lra.
  - assert (Hk : In k (keys (get_successor_probs M (x, y) a)))
      by (change k with (fst (k, p)); by apply in_map).
    destruct (is_terminal M (x, y)) eqn:Hterm;
      [rewrite successors_terminal in Hk by done; destruct Hk|].
    destruct (in_dec string_dec a four_actions) as [Ha|Ha];
      [|rewrite successors_unknown_action in Hk by done; destruct Hk].
    destruct (successors_shape M (x, y) a Hterm Ha)
      as (f & s1 & s2 & Heq & Hgrid).
    destruct Hgrid as (Hf & Hs1 & Hs2 & _); [by split|].
    rewrite Heq, !keys_dict_iadd in Hk. cbn [keys map fst] in Hk.
    assert (Hstep : forall dir,
               (Z.abs ((Spec.step M dir (x, y)).1 - x)
                + Z.abs ((Spec.step M dir (x, y)).2 - y) <= 1)%Z).
    { intros dir. unfold Spec.step.
      repeat (destruct (String.eqb dir _)); case_decide; cbn [fst snd];
        lia. }
    destruct Hk as [->|[->|[->|[]]]]; subst; apply Hstep.
Qed.

End Policies.

(** ** Rewards and terminal states outside the grid *)

Section Frame.

Variables num_rows num_cols : Z.
Variables rewards1 rewards2 : gmap (Z * Z) Q.
Variables terminals1 terminals2 : list state.
Variables prob_forw reward_default1 reward_default2 : Q.

Local Abbreviation M1 :=
  (MDP_init num_rows num_cols rewards1 terminals1 prob_forw reward_default1).
Local Abbreviation M2 :=
  (MDP_init num_rows num_cols rewards2 terminals2 prob_forw reward_default2).

Hypothesis Hrewards :
  forall s, In s (grid_states num_rows num_cols) ->
            get_reward M1 s = get_reward M2 s.
Hypothesis Hterminals :
  forall s, In s (grid_states num_rows num_cols) ->
            is_terminal M1 s = is_terminal M2 s.

Lemma successors_agree s a :
  In s (grid_states num_rows num_cols) ->
  get_successor_probs M1 s a = get_successor_probs M2 s a.
Proof.
  intros Hs. unfold get_successor_probs. by rewrite (Hterminals s Hs).
Qed.

Lemma sweep_state_agree gamma omr U acc s :
  In s (grid_states num_rows num_cols) ->
  sweep_state M1 gamma omr U acc s = sweep_state M2 gamma omr U acc s.
Proof.
  intros Hs. unfold sweep_state. destruct acc as [updated cv].
  destruct (subscript U s); cbn [mbind outcome_bind]; try done.
  destruct omr as [mr|]; cbn [mbind outcome_bind]; [|done].
  rewrite (for_each_ext
             (fun max_val action =>
                e ← utility_prob_sum (get_successor_probs M1 s action) U;
                Ret (py_max max_val e))
             (fun max_val action =>
                e ← utility_prob_sum (get_successor_probs M2 s action) U;
                Ret (py_max max_val e))
             (get_actions M1 s) mr)
    by (intros mv a' _; by rewrite (successors_agree s a' Hs)).
  by rewrite (Hrewards s Hs).
Qed.

Lemma vi_init_agree : vi_init M1 = vi_init M2.
Proof.
  unfold vi_init. apply fold_left_ext_in.
  intros [U omr] s Hs. unfold vi_init_step. by rewrite (Hrewards s Hs).
Qed.

Lemma vi_loop_agree fuel gamma epsilon omr U updated :
  vi_loop fuel M1 gamma epsilon omr U updated
  = vi_loop fuel M2 gamma epsilon omr U updated.
Proof.
  revert U updated. induction fuel as [|fuel IH]; intros U updated; [done|].
  cbn [vi_loop].
  assert (Hsweep : sweep M1 gamma omr U updated
                   = sweep M2 gamma omr U updated).
  { unfold sweep. apply for_each_ext.
    intros acc s Hs. by apply sweep_state_agree. }
  rewrite Hsweep.
  destruct (sweep M2 gamma omr U updated) as [[updated' cv]| | |];
    cbn [mbind outcome_bind]; try done.
  destruct (Qle_bool cv epsilon); [done|apply IH].
Qed.

Lemma policy_state_step_agree U policy s :
  In s (grid_states num_rows num_cols) ->
  policy_state_step M1 U policy s = policy_state_step M2 U policy s.
Proof.
  intros Hs. unfold policy_state_step. rewrite (Hterminals s Hs).
  destruct (is_terminal M2 s); [done|].
  rewrite (for_each_ext (policy_action_step M1 U s)
             (policy_action_step M2 U s) (get_actions M1 s) (None, None));
    [done|].
  intros acc a' _. unfold policy_action_step.
  by rewrite (successors_agree s a' Hs).
Qed.

(** X9.  Two models of the same dimensions and forward probability whose
    rewards and terminal states agree on the cells of the grid give the
    same utilities and the same policy: a reward or a terminal state
    given for a cell outside the grid changes nothing. *)
Theorem off_grid_entries_are_inert :
  (forall fuel gamma epsilon,
      value_iteration fuel M1 gamma epsilon
      = value_iteration fuel M2 gamma epsilon) /\
  (forall U, derive_policy M1 U = derive_policy M2 U).
Proof.
  split.
  - intros fuel gamma epsilon.
    rewrite !value_iteration_unfold, vi_init_agree. apply vi_loop_agree.
  - intros U. unfold derive_policy. apply for_each_ext.
    intros policy s Hs. by apply policy_state_step_agree.
Qed.

End Frame.

(** ** Rendering *)

Lemma cell_Some (vals : gmap (Z * Z) string) k v :
  vals !! k = Some v -> cell vals k = Fine v.
Proof. unfold cell. by intros ->. Qed.

Lemma cell_None (vals : gmap (Z * Z) string) k :
  vals !! k = None -> cell vals k = Raised (KeyErrorCell k).
Proof. unfold cell. by intros ->. Qed.

(** Either the six cells are there, or the first one that is not, in the
    order of reading, is reported. *)
Lemma ascii_grid_cases (vals : gmap (Z * Z) string) :
  ((forall k, In k six_cells -> is_Some (vals !! k)) /\
   exists text, ascii_grid vals = Fine text) \/
  (exists l1 k l2,
     six_cells = l1 ++ k :: l2 /\
     (forall k', In k' l1 -> is_Some (vals !! k')) /\
     vals !! k = None /\
     ascii_grid vals = Raised (KeyErrorCell k)).
Proof.
  unfold ascii_grid, six_cells.
  destruct (vals !! (1, 2)%Z) as [v12|] eqn:H12; cycle 1.
  { right. exists [], (1, 2)%Z, [(2, 2); (3, 2); (1, 1); (2, 1); (3, 1)]%Z.
    rewrite (cell_None _ _ H12). repeat split; done. }
  rewrite (cell_Some _ _ _ H12). cbn [mbind raised_bind].
  destruct (vals !! (2, 2)%Z) as [v22|] eqn:H22; cycle 1.
  { right. exists [(1, 2)%Z], (2, 2)%Z, [(3, 2); (1, 1); (2, 1); (3, 1)]%Z.
    rewrite (cell_None _ _ H22). repeat split; try done.
    all: intros k Hk; each_state Hk; eauto. }
  rewrite (cell_Some _ _ _ H22). cbn [mbind raised_bind].
  destruct (vals !! (3, 2)%Z) as [v32|] eqn:H32; cycle 1.
  { right. exists [(1, 2); (2, 2)]%Z, (3, 2)%Z, [(1, 1); (2, 1); (3, 1)]%Z.
    rewrite (cell_None _ _ H32). repeat split; try done.
    all: intros k Hk; each_state Hk; eauto. }
  rewrite (cell_Some _ _ _ H32). cbn [mbind raised_bind].
  destruct (vals !! (1, 1)%Z) as [v11|] eqn:H11; cycle 1.
  { right. exists [(1, 2); (2, 2); (3, 2)]%Z, (1, 1)%Z, [(2, 1); (3, 1)]%Z.
    rewrite (cell_None _ _ H11). repeat split; try done.
    all: intros k Hk; each_state Hk; eauto. }
  rewrite (cell_Some _ _ _ H11). cbn [mbind raised_bind].
  destruct (vals !! (2, 1)%Z) as [v21|] eqn:H21; cycle 1.
  { right. exists [(1, 2); (2, 2); (3, 2); (1, 1)]%Z, (2, 1)%Z, [(3, 1)%Z].
    rewrite (cell_None _ _ H21). repeat split; try done.
    all: intros k Hk; each_state Hk; eauto. }
  rewrite (cell_Some _ _ _ H21). cbn [mbind raised_bind].
  destruct (vals !! (3, 1)%Z) as [v31|] eqn:H31; cycle 1.
  { right. exists [(1, 2); (2, 2); (3, 2); (1, 1); (2, 1)]%Z, (3, 1)%Z, [].
    rewrite (cell_None _ _ H31). repeat split; try done.
    all: intros k Hk; each_state Hk; eauto. }
  rewrite (cell_Some _ _ _ H31). cbn [mbind raised_bind].
  left. split; [|eauto]. intros k Hk. each_state Hk; eauto.
Qed.

Lemma ascii_grid_agree (vals vals' : gmap (Z * Z) string) :
  (forall k, In k six_cells -> vals' !! k = vals !! k) ->
  ascii_grid vals' = ascii_grid vals.
Proof.
  intros Hagree. unfold ascii_grid, cell.
  rewrite !Hagree by (unfold six_cells; simpl; auto 7). reflexivity.
Qed.

(** X12.  [ascii_grid] reads the six cells of a grid three wide and two
    high, and nothing else: it returns a text when they are all there,
    raises [KeyError] for the first missing one in the order (1,2),
    (2,2), (3,2), (1,1), (2,1), (3,1) otherwise, and two dictionaries
    that agree on the six cells give the same result. *)
Theorem ascii_grid_reads_six_cells (vals : gmap (Z * Z) string) :
  (((forall k, In k six_cells -> is_Some (vals !! k)) /\
    exists text, ascii_grid vals = Fine text) \/
   (exists l1 k l2,
      six_cells = l1 ++ k :: l2 /\
      (forall k', In k' l1 -> is_Some (vals !! k')) /\
      vals !! k = None /\
      ascii_grid vals = Raised (KeyErrorCell k))) /\
  (forall vals' : gmap (Z * Z) string,
      (forall k, In k six_cells -> vals' !! k = vals !! k) ->
      ascii_grid vals' = ascii_grid vals).
Proof.
  split; [apply ascii_grid_cases|]. intros vals'. apply ascii_grid_agree.
Qed.

Lemma policy_cells_fine (items : list (state * option string)) :
  (forall k v, In (k, v) items -> is_Some (symbols v)) ->
  policy_cells items = Fine (prod_map id cell_text <$> items).
Proof.
  induction items as [|[k v] items IH]; intros Hsym; [done|].
  cbn [policy_cells]. destruct (Hsym k v) as [sym Hv]; [simpl; auto|].
  rewrite Hv, IH by (intros; eapply Hsym; simpl; eauto).
  cbn [mbind raised_bind fmap list_fmap prod_map fst snd id].
  unfold cell_text. by rewrite Hv.
Qed.

Lemma policy_cells_raised (items : list (state * option string)) k v :
  In (k, v) items -> symbols v = None ->
  exists k' v',
    In (k', v') items /\ symbols v' = None /\
    policy_cells items = Raised (KeyErrorSymbol v').
Proof.
  induction items as [|[k0 v0] items IH]; intros Hin Hv; [destruct Hin|].
  cbn [policy_cells]. destruct (symbols v0) as [sym|] eqn:Hv0.
  - destruct Hin as [[= -> ->]|Hin]; [congruence|].
    destruct (IH Hin Hv) as (k' & v' & Hin' & Hv' & ->).
    exists k', v'. split; [simpl; auto|]. done.
  - exists k0, v0. split; [simpl; auto|]. done.
Qed.

Lemma ascii_grid_policy_fine (actions : policy_map) :
  (forall k v, actions !! k = Some v -> is_Some (symbols v)) ->
  ascii_grid_policy actions = ascii_grid (cell_text <$> actions).
Proof.
  intros Hsym. unfold ascii_grid_policy.
  rewrite policy_cells_fine.
  - cbn [mbind raised_bind].
    by rewrite list_to_map_fmap, list_to_map_to_list.
  - intros k v Hin. apply (Hsym k).
    by apply elem_of_map_to_list, list_elem_of_In.
Qed.

(** X13.  [ascii_grid_policy] renders the policy through [ascii_grid],
    the text of a cell being its symbol between three and two spaces,
    when every value of the policy is one of the four actions or [None];
    a value without symbol, in whatever cell, makes it raise [KeyError]
    for such a value before any cell is read. *)
Theorem ascii_grid_policy_behaviour (actions : policy_map) :
  ((forall k v, actions !! k = Some v -> is_Some (symbols v)) /\
   ascii_grid_policy actions = ascii_grid (cell_text <$> actions)) \/
  (exists k v,
     actions !! k = Some v /\ symbols v = None /\
     ascii_grid_policy actions = Raised (KeyErrorSymbol v)).
Proof.
  destruct (decide (map_Forall (fun _ v => is_Some (symbols v)) actions))
    as [Hall|Hex].
  - left. split; [exact Hall|]. by apply ascii_grid_policy_fine.
  - right. apply map_not_Forall in Hex; [|apply _].
    destruct Hex as (k & v & Hkv & Hv).
    assert (Hnone : symbols v = None)
      by (destruct (symbols v); [exfalso; eauto|done]).
    destruct (policy_cells_raised (map_to_list actions) k v)
      as (k' & v' & Hin & Hv' & Hraised); [|done|].
    { by apply list_elem_of_In, elem_of_map_to_list. }
    exists k', v'. split; [|split; [done|]].
    + by apply elem_of_map_to_list, list_elem_of_In.
    + unfold ascii_grid_policy. by rewrite Hraised.
Qed.

(** ** The solver followed by the deriver, and the driver *)

Lemma value_iteration_result_keys (m : MDP) (fuel : nat) (gamma epsilon : Q)
    (U : utility_map) :
  constructed m ->
  value_iteration fuel m gamma epsilon = Ret U ->
  covers U (get_states m) /\
  (forall k, ~ In k (get_states m) -> U !! k = None).
Proof.
  intros Hm Hret. destruct (vi_init_min_total m) as [mr Homr].
  rewrite value_iteration_unfold in Hret.
  apply (vi_loop_returns m Hm gamma epsilon mr (vi_init m).2 Homr) in Hret;
    [|apply vi_init_covers].
  destruct Hret as (P & _ & _ & Hin & Hout). split.
  - intros k Hk. rewrite (Hin k Hk). eauto.
  - intros k Hk. by rewrite (Hout k Hk), lookup_empty.
Qed.

Lemma policy_choice_cases (m : MDP) (U : utility_map) (s : state) :
  constructed m ->
  (is_terminal m s = true /\ policy_choice m U s = None) \/
  (is_terminal m s = false /\
   exists a, In a four_actions /\ policy_choice m U s = Some a).
Proof.
  intros Hm. unfold policy_choice.
  destruct (is_terminal m s); [by left|]. right. split; [done|].
  pose proof (first_best_fold m U s (get_actions m s) [] (None, None)
                eq_refl) as Hbest.
  rewrite app_nil_l in Hbest. unfold get_actions in *.
  rewrite (constructed_actions m Hm) in *.
  destruct (fold_left _ _ _) as [[a|] [e|]]; cbn [first_best] in Hbest;
    try done.
  destruct Hbest as (_ & i & Hi & _). exists a. split; [|done].
  apply list_elem_of_In. by apply list_elem_of_lookup_2 in Hi.
Qed.

Lemma four_actions_have_symbols a :
  In a four_actions -> is_Some (symbols (Some a)).
Proof.
  intros Ha. apply In_four_actions in Ha.
  destruct Ha as [ -> | [ -> | [ -> | -> ] ] ]; cbn; eauto.
Qed.

Section Driver.

Variables num_rows num_cols : Z.
Variable rewards : gmap (Z * Z) Q.
Variable terminals : list state.
Variables prob_forw reward_default : Q.
Variable format_8_4f : Q -> string.
Variable format_exc : exn -> string.

Local Abbreviation M :=
  (MDP_init num_rows num_cols rewards terminals prob_forw reward_default).

Lemma derive_policy_of_result (U : utility_map) :
  covers U (get_states M) ->
  derive_policy M U
  = Ret (fold_left (fun p s => <[s := policy_choice M U s]> p)
           (get_states M) ∅).
Proof.
  intros HU.
  pose proof (MDP_init_constructed num_rows num_cols rewards terminals
                prob_forw reward_default) as HM.
  apply (derive_policy_loop_ret M HM U (get_states M) ∅ HU).
  apply incl_refl.
Qed.

(** X14.  On a grid less than three cells wide or less than two cells
    high, [utils_and_policy] discards what [value_iteration] returned:
    the rendering raises [KeyError] for a cell outside the grid, the
    [except] branch prints the traceback, and the pair returned is
    [(None, None)]. *)
Theorem utils_and_policy_small_grid (fuel : nat) (gamma epsilon : Q)
    (U : utility_map) :
  (num_cols < 3)%Z \/ (num_rows < 2)%Z ->
  value_iteration fuel M gamma epsilon = Ret U ->
  exists k,
    In k six_cells /\ ~ In k (get_states M) /\
    utils_and_policy format_8_4f format_exc fuel (Some M) (Some gamma)
      (Some epsilon)
    = Ret (except_prints format_exc (KeyErrorCell k), (None, None)).
Proof.
  intros Hdim Hret.
  pose proof (MDP_init_constructed num_rows num_cols rewards terminals
                prob_forw reward_default) as HM.
  destruct (value_iteration_result_keys M fuel gamma epsilon U HM Hret)
    as [HU Hout].
  unfold utils_and_policy. rewrite Hret. cbn [mbind outcome_bind].
  unfold ascii_grid_utils.
  destruct (ascii_grid_cases (format_8_4f <$> U))
    as [[Hall _]|(l1 & k & l2 & Hsplit & _ & Hk & ->)].
  - exfalso.
    assert (Hin : forall x y, In (x, y) six_cells ->
                              (1 <= x <= num_cols)%Z /\ (1 <= y <= num_rows)%Z).
    { intros x y Hxy. apply In_grid_states.
      destruct (in_dec (fun a b : state => decide (a = b)) (x, y)
                  (get_states M)) as [|Hnotin]; [done|].
      destruct (Hall _ Hxy) as [v Hv].
      by rewrite lookup_fmap, (Hout _ Hnotin) in Hv. }
    destruct (Hin 3%Z 2%Z) as [? ?]; [unfold six_cells; simpl; auto 7|lia].
  - exists k. split; [|split; [|done]].
    + rewrite Hsplit. apply in_or_app. simpl; auto.
    + intros Hin. destruct (HU k Hin) as [u Hu].
      by rewrite lookup_fmap, Hu in Hk.
Qed.

(** X15.  On a grid at least three cells wide and two cells high,
    whenever [value_iteration] returns, [utils_and_policy] prints the
    rendering of the utilities, an empty line and the rendering of the
    policy, and returns the utilities with the policy that
    [derive_policy] makes of them. *)
Theorem utils_and_policy_full_grid (fuel : nat) (gamma epsilon : Q)
    (U : utility_map) :
  (3 <= num_cols)%Z -> (2 <= num_rows)%Z ->
  value_iteration fuel M gamma epsilon = Ret U ->
  exists policy text text',
    derive_policy M U = Ret policy /\
    ascii_grid_utils format_8_4f U = Fine text /\
    ascii_grid_policy policy = Fine text' /\
    utils_and_policy format_8_4f format_exc fuel (Some M) (Some gamma)
      (Some epsilon)
    = Ret ([text; ""%string; text'], (Some U, Some policy)).
Proof.
  intros Hc Hr Hret.
  pose proof (MDP_init_constructed num_rows num_cols rewards terminals
                prob_forw reward_default) as HM.
  destruct (value_iteration_result_keys M fuel gamma epsilon U HM Hret)
    as [HU Hout].
  assert (Hsix : forall k, In k six_cells -> In k (get_states M)).
  { intros k Hk. unfold six_cells in Hk.
    each_state Hk; apply In_grid_states; lia. }
  set (policy := fold_left
                   (fun (p : policy_map) s => <[s := policy_choice M U s]> p)
                   (get_states M) ∅).
  assert (Hpol : derive_policy M U = Ret policy)
    by by apply derive_policy_of_result.
  assert (Hsym : forall k v, policy !! k = Some v -> is_Some (symbols v)).
  { intros k v Hkv. unfold policy in Hkv.
    destruct (in_dec (fun a b : state => decide (a = b)) k (get_states M))
      as [Hin|Hnotin].
    - rewrite (fold_insert_in (policy_choice M U)) in Hkv by done.
      injection Hkv as <-.
      destruct (policy_choice_cases M U k HM)
        as [[_ ->]|(_ & a & Ha & ->)];
        [by eexists|by apply four_actions_have_symbols].
    - rewrite (fold_insert_out (policy_choice M U)), lookup_empty in Hkv
        by done.
      done. }
  destruct (ascii_grid_cases (format_8_4f <$> U))
    as [[_ [text Htext]]|(l1 & k & l2 & Hsplit & _ & Hk & _)]; cycle 1.
  { exfalso. destruct (HU k) as [u Hu].
    - apply Hsix. rewrite Hsplit. apply in_or_app. simpl; auto.
    - by rewrite lookup_fmap, Hu in Hk. }
  destruct (ascii_grid_cases (cell_text <$> policy))
    as [[_ [text' Htext']]|(l1 & k & l2 & Hsplit & _ & Hk & _)]; cycle 1.
  { exfalso. rewrite lookup_fmap in Hk. unfold policy in Hk.
    rewrite (fold_insert_in (policy_choice M U)) in Hk; [done|].
    apply Hsix. rewrite Hsplit. apply in_or_app. simpl; auto. }
  assert (Hrender : ascii_grid_policy policy = Fine text')
    by (rewrite (ascii_grid_policy_fine policy Hsym); exact Htext').
  exists policy, text, text'.
  split; [done|]. split; [done|]. split; [done|].
  unfold utils_and_policy. rewrite Hret. cbn [mbind outcome_bind].
  unfold ascii_grid_utils in *. by rewrite Htext, Hpol, Hrender.
Qed.

(** When one of its three arguments is [None], [utils_and_policy] prints
    one message and returns [(None, None)] without calling
    [value_iteration]. *)
Lemma utils_and_policy_none_argument (fuel : nat)
    (emdeepee : option MDP) (gamma epsilon : option Q) :
  emdeepee = None \/ gamma = None \/ epsilon = None ->
  exists message,
    utils_and_policy format_8_4f format_exc fuel emdeepee gamma epsilon
    = Ret ([message], (None, None)).
Proof.
  intros Hnone. unfold utils_and_policy.
  destruct emdeepee, gamma, epsilon; eauto;
    destruct Hnone as [?|[?|?]]; discriminate.
Qed.

End Driver.

(** ** The solver followed by the deriver, over doubles *)

Section PoliciesOverDoubles.

Import PrimFloat SpecFloat FloatOps FloatAxioms.
Local Open Scope float_scope.

Variables num_rows num_cols : Z.
Variable rewards : gmap (Z * Z) float.
Variable terminals : list state.
Variables prob_forw reward_default : float.

Local Abbreviation MF :=
  (F64.MDP_init num_rows num_cols rewards terminals prob_forw
     reward_default).

(** X11.  Whatever [value_iteration] returns, [derive_policy] accepts:
    it raises no [KeyError] on it and returns a policy with an entry for
    every state and for nothing else, [None] for a terminal state, and
    [None] or one of the four actions for any other. *)
Theorem derive_policy_accepts_the_utilities (fuel : nat)
    (gamma epsilon : float) (U : gmap (Z * Z) float) :
  F64.value_iteration fuel MF gamma epsilon = Ret U ->
  exists policy : policy_map,
    F64.derive_policy MF U = Ret policy /\
    (forall s, In s (F64.get_states MF) ->
       (F64.is_terminal MF s = true /\ policy !! s = Some None) \/
       (F64.is_terminal MF s = false /\
        (policy !! s = Some None \/
         exists a, In a four_actions /\ policy !! s = Some (Some a)))) /\
    (forall s, ~ In s (F64.get_states MF) -> policy !! s = None).
Proof.
  intros Hret.
  pose proof (MDP_init_constructed_f64 num_rows num_cols rewards terminals
                prob_forw reward_default) as HM.
  destruct (value_iteration_outcome_f64 fuel MF gamma epsilon HM)
    as [Ht|(P & HP & Hc & Heq)]; [congruence|].
  rewrite Heq in Hret. injection Hret as <-.
  eexists. split; [|split].
  - apply (derive_policy_ret_f64 MF HM).
    intros s Hs. rewrite sweep_values_in_f64 by done. eauto.
  - intros s Hs. rewrite (fold_insert_in (F64.policy_choice MF _)) by done.
    unfold F64.policy_choice.
    destruct (F64.is_terminal MF s); [by left|]. right. split; [done|].
    match goal with
    | |- context [fold_left (F64.best_step MF ?V s) ?acts ?acc] =>
        destruct (best_step_among_f64 MF V s acts acc)
          as [->|(a & Ha & ->)]
    end; [by left|right; eauto].
  - intros s Hs.
    by rewrite (fold_insert_out (F64.policy_choice MF _)), lookup_empty.
Qed.

End PoliciesOverDoubles.

(** ** The further properties at concrete scenarios *)

Lemma negative_epsilon_never_returns_witness :
  value_iteration 5 gridworld1 (8 # 10) (-1 # 100) = Timeout.
Proof.
  apply (negative_epsilon_never_returns 2 3 (test_rewards (-10)) [(3, 2)%Z]
           (8 # 10) 0 5 (8 # 10) (-1 # 100)).
  by vm_compute.
Defined.

Lemma empty_grid_gives_empty_maps_witness :
  (forall fuel gamma epsilon,
      0 <= epsilon ->
      value_iteration (S fuel) (MDP_init 0 3 ∅ [] (8 # 10) 0) gamma epsilon
      = Ret ∅) /\
  (forall U, derive_policy (MDP_init 0 3 ∅ [] (8 # 10) 0) U = Ret ∅).
Proof.
  apply (empty_grid_gives_empty_maps 0 3 ∅ [] (8 # 10) 0). left. lia.
Defined.



Lemma terminal_utility_formula_witness :
  exists U mr u,
    value_iteration 1 corridor (1 # 2) 100 = Ret U /\
    (vi_init corridor).2 = Some mr /\ U !! (2, 1)%Z = Some u /\
    u == get_reward corridor (2, 1)%Z + (1 # 2) * Qmax mr 0 /\
    (mr <= 0 -> u == get_reward corridor (2, 1)%Z).
Proof.
  destruct (value_iteration 1 corridor (1 # 2) 100) as [U| | |] eqn:Hret;
    [|exfalso; vm_compute in Hret; discriminate..].
  destruct (terminal_utility_formula 1 2 {[ (2, 1)%Z := 20 ]} [(2, 1)%Z]
              (1 # 2) (-1) 1 (1 # 2) 100 U (2, 1)%Z Hret)
    as (mr & u & Hmr & Hu & Heq & Hle); [simpl; auto|reflexivity|].
  exists U, mr, u. done.
Defined.

Lemma off_grid_entries_are_inert_witness :
  (forall fuel gamma epsilon,
      value_iteration fuel gridworld1 gamma epsilon
      = value_iteration fuel gridworld1_padded gamma epsilon) /\
  (forall U, derive_policy gridworld1 U = derive_policy gridworld1_padded U).
Proof.
  apply (off_grid_entries_are_inert 2 3 (test_rewards (-10))
           (<[(9, 9)%Z := 5]> (test_rewards (-10)))
           [(3, 2)%Z] [(3, 2)%Z; (0, 0)%Z] (8 # 10) 0 0);
    intros s Hs; each_state Hs; reflexivity.
Defined.

Lemma successor_probs_bounded_witness :
  In ((3, 1)%Z, 180 # 200) (get_successor_probs gridworld1 (3, 1)%Z "down") /\
  0 <= 180 # 200 <= 1 /\ (Z.abs (3 - 3) + Z.abs (1 - 1) <= 1)%Z.
Proof.
  split; [simpl; auto|].
  apply (successor_probs_bounded 2 3 (test_rewards (-10)) [(3, 2)%Z]
           (8 # 10) 0 3 1 "down" (3, 1)%Z (180 # 200));
    [lia|lia|split; by vm_compute|simpl; auto].
Defined.

Section FurtherOverDoubles.

Import PrimFloat SpecFloat FloatOps FloatAxioms.
Local Open Scope float_scope.

Local Abbreviation discount_08 := 0x1.999999999999ap-1.
Local Abbreviation epsilon_001 := 0x1.47ae147ae147bp-7.

Lemma derive_policy_accepts_the_utilities_witness :
  F64.value_iteration 10 F64.gridworld1 discount_08 epsilon_001
  = Ret F64.test1_utilities /\
  exists policy : policy_map,
    F64.derive_policy F64.gridworld1 F64.test1_utilities = Ret policy /\
    (forall s, In s (F64.get_states F64.gridworld1) ->
       (F64.is_terminal F64.gridworld1 s = true /\ policy !! s = Some None)
       \/
       (F64.is_terminal F64.gridworld1 s = false /\
        (policy !! s = Some None \/
         exists a, In a four_actions /\ policy !! s = Some (Some a)))) /\
    (forall s, ~ In s (F64.get_states F64.gridworld1) -> policy !! s = None).
Proof.
  assert (Hret : F64.value_iteration 10 F64.gridworld1 discount_08
                   epsilon_001 = Ret F64.test1_utilities)
    by by vm_compute.
  split; [exact Hret|].
  exact (derive_policy_accepts_the_utilities 2 3 (F64.test_rewards (-10))
           [(3, 2)%Z] discount_08 0 10 discount_08 epsilon_001
           F64.test1_utilities Hret).
Defined.

End FurtherOverDoubles.

Lemma utils_and_policy_small_grid_witness :
  exists U k,
    value_iteration 1 corridor (1 # 2) 100 = Ret U /\
    In k six_cells /\ ~ In k (get_states corridor) /\
    utils_and_policy (fun _ => "?"%string) (fun _ => "traceback"%string) 1
      (Some corridor) (Some (1 # 2)) (Some 100)
    = Ret (except_prints (fun _ => "traceback"%string) (KeyErrorCell k),
           (None, None)).
Proof.
  destruct (value_iteration 1 corridor (1 # 2) 100) as [U| | |] eqn:Hret;
    [|exfalso; vm_compute in Hret; discriminate..].
  destruct (utils_and_policy_small_grid 1 2 {[ (2, 1)%Z := 20 ]} [(2, 1)%Z]
              (1 # 2) (-1) (fun _ => "?"%string)
              (fun _ => "traceback"%string) 1 (1 # 2) 100 U)
    as (k & Hk & Hout & Hdriver); [left; lia|exact Hret|].
  exists U, k. done.
Defined.

Lemma utils_and_policy_full_grid_witness :
  exists U policy text text',
    value_iteration 1 gridworld1 (8 # 10) 1000 = Ret U /\
    derive_policy gridworld1 U = Ret policy /\
    ascii_grid_utils (fun _ => "?"%string) U = Fine text /\
    ascii_grid_policy policy = Fine text' /\
    utils_and_policy (fun _ => "?"%string) (fun _ => "traceback"%string) 1
      (Some gridworld1) (Some (8 # 10)) (Some 1000)
    = Ret ([text; ""%string; text'], (Some U, Some policy)).
Proof.
  destruct (value_iteration 1 gridworld1 (8 # 10) 1000) as [U| | |] eqn:Hret;
    [|exfalso; vm_compute in Hret; discriminate..].
  destruct (utils_and_policy_full_grid 2 3 (test_rewards (-10)) [(3, 2)%Z]
              (8 # 10) 0 (fun _ => "?"%string)
              (fun _ => "traceback"%string) 1 (8 # 10) 1000 U)
    as (policy & text & text' & Hpol & Htext & Htext' & Hdriver);
    [lia|lia|exact Hret|].
  exists U, policy, text, text'.
  split; [reflexivity|]. split; [exact Hpol|]. split; [exact Htext|].
  split; [exact Htext'|exact Hdriver].
Defined.
